(** * Hiera lookup engine: invocation context, provider cache, config memoisation

    A shallow embedding of

    - [session/session.go]: the invocation context [ivContext] with its
      recursion guard ([WithKey]), redaction flag ([DoRedacted]), merge
      strategy selection ([SetMergeStrategy]), type conversion
      ([LookupAndConvertData]), the lookup entry point ([Lookup]), the
      location merge ([MergeLocations], [invokeWithLocation]) and the
      memoised, single-flight [Config];
    - [internal/serverctx.go]: the provider cache of [serverCtx].

    Go methods with a pointer receiver become computations in a state and
    panic monad over the fields of the receiver; collaborators that live
    outside the files above (providers, the explainer, the merge package,
    the dgo type system) are section variables, and every call the engine
    makes on one of them is appended to a trace.  [Config] is the one
    method whose callers run concurrently: there each caller is a
    program counter over the atomic operations of [sync.Map] and
    [sync.RWMutex], and a schedule interleaves the callers. *)

From Stdlib Require Import ZArith Lia.
From stdpp Require Import gmap strings list.

Open Scope string_scope.
Open Scope list_scope.
Set Warnings "-clear-no-such-hyp".

(** ** dgo values *)

Module Dgo.

(** The part of the dgo value model the engine inspects: strings, maps
    and arrays are told apart by type switches, everything else falls in
    the default branch.  [VNil] is dgo's Nil value; Go's nil interface is
    [None] of [option Value].  Maps of lookup options come from YAML or JSON
    data and are keyed by strings. *)
#[warnings="-register-all"]
Inductive Value : Type :=
| VNil
| VString (s : string)
| VInt (z : Z)
| VBool (b : bool)
| VArray (elems : list Value)
| VMap (entries : list (string * Value))
| VArguments (args : list Value).

(** [dgo.Map.Get]: the value of the first entry with that key, [None]
    (Go's nil) when there is none. *)
Fixpoint Get (m : list (string * Value)) (k : string) : option Value :=
  match m with
  | [] => None
  | (k', v) :: rest => if String.eqb k' k then Some v else Get rest k
  end.

(** [dgo.Map.Without]: the map without the entries of that key. *)
Fixpoint Without (m : list (string * Value)) (k : string) : list (string * Value) :=
  match m with
  | [] => []
  | (k', v) :: rest =>
      if String.eqb k' k then Without rest k else (k', v) :: Without rest k
  end.

(** [dgo.Array.Slice(1, Len())] *)
Definition SliceFrom1 (a : list Value) : list Value := drop 1 a.

(** [util.ContainsString] *)
Definition ContainsString (l : list string) (s : string) : bool :=
  existsb (String.eqb s) l.

(** [strings.Join] *)
Fixpoint Join (l : list string) (sep : string) : string :=
  match l with
  | [] => ""
  | [s] => s
  | s :: rest => s +:+ sep +:+ Join rest sep
  end.

End Dgo.

(** ** The invocation context *)

Module Session.
Import Dgo.

Inductive invocationMode : Type :=
| topLevelMode
| lookupOptionsMode
| dataMode.

Definition invocationMode_eqb (a b : invocationMode) : bool :=
  match a, b with
  | topLevelMode, topLevelMode => true
  | lookupOptionsMode, lookupOptionsMode => true
  | dataMode, dataMode => true
  | _, _ => false
  end.

(** [hieraapi.Key]: the source string, the root name and the path
    segments that [Dig] walks. *)
Record Key : Type := mkKey {
  Source : string;
  Root : string;
  Parts : list (string + Z)
}.

(** [hieraapi.Explainer]: the two flags the engine reads.  The calls it
    receives are recorded in the trace of the world. *)
Record Explainer : Type := mkExplainer {
  OnlyOptions : bool;
  Options : bool
}.

(** A panic value. *)
Inductive Error : Type :=
| RecursiveLookup (names : list string)
| TypeAssertion (what : string)
| SliceBounds
| NotFound
| OtherError (msg : string).

(** The text of the error [WithKey] raises. *)
Definition Error_message (e : Error) : string :=
  match e with
  | RecursiveLookup names =>
      "recursive lookup detected in [" +:+ Join names ", " +:+ "]"
  | TypeAssertion what => "interface conversion: " +:+ what
  | SliceBounds => "slice bounds out of range"
  | NotFound => "not found"
  | OtherError msg => msg
  end.

Inductive Outcome (A : Type) : Type :=
| Val (a : A)
| Panicked (e : Error).
Arguments Val {A} a.
Arguments Panicked {A} e.

Section Engine.

(** What lies outside [session.go]. *)
Context {Ext : Type}.                (* state of the outside world *)
Context {Location : Type}.           (* hieraapi.Location *)
Context {DType : Type}.              (* dgo.Type *)
Context {Strategy : Type}.           (* hieraapi.MergeStrategy *)

(** [hieraapi.DataProvider]: a name and the locations of its hierarchy
    entry; [LookupKey] is a variable below. *)
Record DataProvider : Type := mkDataProvider {
  providerName : string;
  Locations : list Location
}.

Record ivContext : Type := mkIvContext {
  nameStack : list string;
  scope : list (string * Value);
  luOpts : option (list (string * Value));
  strategy : option Strategy;
  explainer : option Explainer;
  mode : invocationMode;
  redacted : bool
}.

(** [serverCtx] as [ic.ServerContext(options)] builds it. *)
Record serverCtx : Type := mkServerCtx {
  providerOptions : option (list (string * Value));
  invocation : ivContext
}.

(** A call the engine makes on a collaborator, in the order made. *)
Inductive Call : Type :=
| PushDataProvider (p : DataProvider)
| PushInterpolation (expr : string)
| PushInvalidKey (k : Key)
| PushLocation (l : Location)
| PushLookup (k : Key)
| PushMerge (s : Strategy)
| PushSegment (seg : string + Z)
| PushSubLookup (k : Key)
| Pop
| AcceptLocationNotFound
| AcceptFound (k : Key) (v : option Value)
| AcceptMergeResult (v : option Value)
| AcceptMergeSource (src : string)
| AcceptNotFound (k : Key)
| AcceptText (msg : string)
| CallTopProvider (sc : serverCtx) (root : string)
| CallInterpolate (dc : ivContext) (v : Value) (allowMethods : bool)
| CallDig (k : Key) (dc : ivContext) (v : option Value)
| CallLookupKey (p : DataProvider) (k : Key) (l : option Location)
| CallMergeLookup (s : Strategy) (ls : list Location)
| CallGetStrategy (name : string) (opts : option (list (string * Value)))
| CallNew (t : DType) (v : Value)
| Observed (names : list string) (red : bool).

(** The receiver's fields, the outside world and the trace of calls. *)
Record World : Type := mkWorld {
  ic : ivContext;
  ext : Ext;
  trace : list Call
}.

(** A Go function body: it returns a value or panics, and leaves a world. *)
Definition M (A : Type) : Type := World -> Outcome A * World.

Definition ret {A} (a : A) : M A := fun w => (Val a, w).

Definition panic {A} (e : Error) : M A := fun w => (Panicked e, w).

Definition bind {A B} (m : M A) (f : A -> M B) : M B :=
  fun w =>
    match m w with
    | (Val a, w') => f a w'
    | (Panicked e, w') => (Panicked e, w')
    end.

(** [defer d; body]: [d] runs when [body] returns and when it panics; a
    panic of [d] replaces the outcome of [body]. *)
Definition defer {A} (d : M unit) (body : M A) : M A :=
  fun w =>
    let (r, w') := body w in
    match d w' with
    | (Val _, w'') => (r, w'')
    | (Panicked e, w'') => (Panicked e, w'')
    end.

Definition getIc : M ivContext := fun w => (Val (ic w), w).

Definition setIc (f : ivContext -> ivContext) : M unit :=
  fun w => (Val tt, mkWorld (f (ic w)) (ext w) (trace w)).

(** A call on the explainer: recorded, nothing returned. *)
Definition tell (c : Call) : M unit :=
  fun w => (Val tt, mkWorld (ic w) (ext w) (trace w ++ [c])).

(** A call on a collaborator that answers from the outside world. *)
Definition outside {A} (c : Call) (f : Ext -> Outcome A * Ext) : M A :=
  fun w =>
    let (r, e') := f (ext w) in
    (r, mkWorld (ic w) e' (trace w ++ [c])).

(** *** Explain frames and reports (session.go, lines 584-731) *)

(** The common shape of the [With...] methods: without an explainer the
    actor runs as it is, with one the frame is pushed, and popped by a
    deferred call when the actor returns or panics. *)
Definition withFrame {A} (pushed : Call) (actor : M A) : M A :=
  bind getIc (fun c =>
    match explainer c with
    | None => actor
    | Some _ => defer (tell Pop) (bind (tell pushed) (fun _ => actor))
    end).

Definition WithDataProvider {A} (p : DataProvider) (actor : M A) : M A :=
  withFrame (PushDataProvider p) actor.

Definition WithInterpolation {A} (expr : string) (actor : M A) : M A :=
  withFrame (PushInterpolation expr) actor.

Definition WithInvalidKey {A} (key : Key) (actor : M A) : M A :=
  withFrame (PushInvalidKey key) actor.

Definition WithLocation {A} (loc : Location) (actor : M A) : M A :=
  withFrame (PushLocation loc) actor.

Definition WithLookup {A} (key : Key) (actor : M A) : M A :=
  withFrame (PushLookup key) actor.

Definition WithMerge {A} (ms : Strategy) (actor : M A) : M A :=
  withFrame (PushMerge ms) actor.

Definition WithSegment {A} (seg : string + Z) (actor : M A) : M A :=
  withFrame (PushSegment seg) actor.

Definition WithSubLookup {A} (key : Key) (actor : M A) : M A :=
  withFrame (PushSubLookup key) actor.

(** The common shape of the [Report...] methods. *)
Definition report (accepted : Call) : M unit :=
  bind getIc (fun c =>
    match explainer c with
    | None => ret tt
    | Some _ => tell accepted
    end).

Definition ReportLocationNotFound : M unit := report AcceptLocationNotFound.

Definition ReportFound (key : Key) (value : option Value) : M unit :=
  report (AcceptFound key value).

Definition ReportMergeResult (value : option Value) : M unit :=
  report (AcceptMergeResult value).

Definition ReportMergeSource (source : string) : M unit :=
  report (AcceptMergeSource source).

Definition ReportNotFound (key : Key) : M unit := report (AcceptNotFound key).

(** *** Modes and narrowed invocations (lines 402-412, 656-695) *)

Definition ExplainMode (c : ivContext) : bool :=
  match explainer c with Some _ => true | None => false end.

Definition LookupOptionsMode (c : ivContext) : bool :=
  invocationMode_eqb (mode c) lookupOptionsMode.

Definition DataMode (c : ivContext) : bool :=
  invocationMode_eqb (mode c) dataMode.

Definition ForConfig (c : ivContext) : ivContext :=
  match explainer c with
  | None => c
  | Some _ =>
      mkIvContext (nameStack c) (scope c) (luOpts c) (strategy c) None
        (mode c) (redacted c)
  end.

Definition ForData (c : ivContext) : ivContext :=
  if DataMode c then c
  else
    let keep :=
      match explainer c with
      | None => true
      | Some e => negb (OnlyOptions e)
      end in
    mkIvContext (nameStack c) (scope c) (luOpts c) (strategy c)
      (if keep then explainer c else None) dataMode (redacted c).

Definition ForLookupOptions (c : ivContext) : ivContext :=
  if LookupOptionsMode c then c
  else
    let keep :=
      match explainer c with
      | None => true
      | Some e => Options e || OnlyOptions e
      end in
    mkIvContext (nameStack c) (scope c) (luOpts c) (strategy c)
      (if keep then explainer c else None) lookupOptionsMode (redacted c).

Definition ServerContext (c : ivContext) (options : option (list (string * Value)))
  : serverCtx :=
  mkServerCtx options c.

(** *** The recursion guard and the redaction flag (lines 545-566) *)

Definition setNameStack (l : list string) (c : ivContext) : ivContext :=
  mkIvContext l (scope c) (luOpts c) (strategy c) (explainer c) (mode c)
    (redacted c).

Definition setRedacted (b : bool) (c : ivContext) : ivContext :=
  mkIvContext (nameStack c) (scope c) (luOpts c) (strategy c) (explainer c)
    (mode c) b.

(** [ic.nameStack = ic.nameStack[:len(ic.nameStack)-1]]: slicing an empty
    slice to length -1 panics. *)
Definition popName : M unit :=
  bind getIc (fun c =>
    match nameStack c with
    | [] => panic SliceBounds
    | _ :: _ => setIc (setNameStack (removelast (nameStack c)))
    end).

Definition WithKey {A} (key : Key) (actor : M A) : M A :=
  bind getIc (fun c =>
    if ContainsString (nameStack c) (Source key)
    then panic (RecursiveLookup (nameStack c))
    else
      bind (setIc (setNameStack (nameStack c ++ [Source key]))) (fun _ =>
        defer popName actor)).

(** The result of [doer] stands for what the Go closure assigns to the
    variables it captures ([v = fn()] in [LookupAndConvertData]). *)
Definition DoRedacted {A} (doer : M A) : M A :=
  bind getIc (fun c =>
    if redacted c then doer
    else
      defer (setIc (setRedacted false))
        (bind (setIc (setRedacted true)) (fun _ => doer))).

(** *** Collaborators *)

Variable TopProvider : serverCtx -> string -> Ext -> Outcome (option Value) * Ext.
Variable Interpolate : ivContext -> Value -> bool -> Ext -> Outcome (option Value) * Ext.
Variable Dig : Key -> ivContext -> option Value -> Ext -> Outcome (option Value) * Ext.
Variable LookupKey :
  DataProvider -> Key -> ivContext -> option Location -> Ext -> Outcome (option Value) * Ext.
Variable Exists : Location -> Ext -> bool.
Variable MergeLookup :
  Strategy -> list Location -> (Location -> M (option Value)) -> M (option Value).
Variable GetStrategy : string -> option (list (string * Value)) -> Outcome Strategy.
Variable ParseType : string -> Outcome DType.
Variable SensitiveEquals : DType -> bool.      (* typ.Sensitive.Equals *)
Variable New : DType -> Value -> Outcome Value. (* vf.New *)

(** A pure collaborator: its call is recorded, its panic propagates. *)
Definition pureCall {A} (c : Call) (r : Outcome A) : M A :=
  outside c (fun e => (r, e)).

(** *** Lookup (lines 527-543) *)

Definition Lookup (key : Key) (options : option (list (string * Value)))
  : M (option Value) :=
  let rootKey := Root key in
  if String.eqb rootKey "lookup_options" then
    WithInvalidKey key (bind (ReportNotFound key) (fun _ => ret None))
  else
    bind getIc (fun c =>
    bind (outside (CallTopProvider (ServerContext c options) rootKey)
            (TopProvider (ServerContext c options) rootKey)) (fun v =>
    match v with
    | Some v0 =>
        let dc := ForData c in
        bind (outside (CallInterpolate dc v0 true) (Interpolate dc v0 true)) (fun v1 =>
        outside (CallDig key dc v1) (Dig key dc v1))
    | None => ret None
    end)).

(** *** Merging the locations of a provider (lines 498-525) *)

Definition invokeWithLocation (dh : DataProvider) (location : option Location)
    (key : Key) : M (option Value) :=
  match location with
  | None =>
      bind getIc (fun c =>
        outside (CallLookupKey dh key None) (LookupKey dh key c None))
  | Some loc =>
      WithLocation loc (fun w =>
        if Exists loc (ext w) then
          bind getIc (fun c =>
            outside (CallLookupKey dh key (Some loc)) (LookupKey dh key c (Some loc))) w
        else
          bind ReportLocationNotFound (fun _ => ret None) w)
  end.

Definition MergeLocations (key : Key) (dh : DataProvider) (merge : Strategy)
  : M (option Value) :=
  WithDataProvider dh
    (let locations := Locations dh in
     match locations with
     | [] => invokeWithLocation dh None key
     | [l0] => invokeWithLocation dh (Some l0) key
     | _ =>
         bind (tell (CallMergeLookup merge locations)) (fun _ =>
           MergeLookup merge locations (fun location =>
             invokeWithLocation dh (Some location) key))
     end).

(** *** Merge strategy selection (lines 444-470) *)

Definition setLuOpts (o : option (list (string * Value))) (c : ivContext) : ivContext :=
  mkIvContext (nameStack c) (scope c) o (strategy c) (explainer c) (mode c)
    (redacted c).

Definition setStrategy (s : option Strategy) (c : ivContext) : ivContext :=
  mkIvContext (nameStack c) (scope c) (luOpts c) s (explainer c) (mode c)
    (redacted c).

Definition dquote : string := String (Ascii.ascii_of_nat 34) EmptyString.

(** The option the strategy is read from: the CLI option when there is
    one, else the [merge] entry of the lookup options. *)
Definition mergeOption (cliMergeOption : option Value)
    (lookupOptions : option (list (string * Value))) : M (option Value) :=
  match cliMergeOption with
  | Some o => bind (ReportMergeSource "CLI option") (fun _ => ret (Some o))
  | None =>
      match lookupOptions with
      | Some lo =>
          match Get lo "merge" with
          | Some o =>
              bind (ReportMergeSource (dquote +:+ "lookup_options" +:+ dquote +:+ " hash"))
                (fun _ => ret (Some o))
          | None => ret None
          end
      | None => ret None
      end
  end.

(** The type switch on the option: name and options of the strategy. *)
Definition mergeNameAndOpts (opts : option Value)
  : string * option (list (string * Value)) :=
  match opts with
  | Some (VString s) => (s, None)
  | Some (VMap m) =>
      match Get m "strategy" with
      | Some (VString mn) => (mn, Some (Without m "strategy"))
      | _ => ("", None)
      end
  | _ => ("first", None)
  end.

Definition SetMergeStrategy (cliMergeOption : option Value)
    (lookupOptions : option (list (string * Value))) : M unit :=
  bind (mergeOption cliMergeOption lookupOptions) (fun opts =>
  let (mergeName, mergeOpts) := mergeNameAndOpts opts in
  bind (setIc (setLuOpts lookupOptions)) (fun _ =>
  bind (pureCall (CallGetStrategy mergeName mergeOpts) (GetStrategy mergeName mergeOpts))
    (fun s => setIc (setStrategy (Some s))))).

(** *** Type conversion (lines 414-442, 472-489) *)

Definition extractConversion : M (option DType * option (list Value)) :=
  bind getIc (fun c =>
  match luOpts c with
  | None => ret (None, None)
  | Some lo =>
      match Get lo "convert_to" with
      | None => ret (None, None)
      | Some ct =>
          let (ts, convertToArgs) :=
            match ct with
            | VArray cm =>
                match cm with
                | [] => (None, None)
                | [t] => (Some t, None)
                | t :: _ => (Some t, Some (SliceFrom1 cm))
                end
            | _ => (Some ct, None)
            end in
          match ts with
          | None => ret (None, convertToArgs)
          | Some (VString s) =>
              match ParseType s with
              | Val t => ret (Some t, convertToArgs)
              | Panicked e => panic e
              end
          | Some _ => panic (TypeAssertion "dgo.Value is not dgo.String")
          end
      end
  end).

Definition isSensitive (t : option DType) : bool :=
  match t with
  | Some t => SensitiveEquals t
  | None => false
  end.

Definition LookupAndConvertData (fn : M (option Value)) : M (option Value) :=
  bind extractConversion (fun '(convertToType, convertToArgs) =>
  bind (if isSensitive convertToType then DoRedacted fn else fn) (fun v =>
  match v, convertToType with
  | Some v0, Some t =>
      let v1 :=
        match convertToArgs with
        | Some args => VArguments (v0 :: args)
        | None => v0
        end in
      bind (pureCall (CallNew t v1) (New t v1)) (fun r => ret (Some r))
  | _, _ => ret v
  end)).

(** *** Closures handed to the engine

    The actors and doers that callers pass in are Go closures over the
    invocation.  Outside [session.go] they reach its private fields only
    through its methods, so a closure is built from returns, panics,
    calls on the outside world, a read of the guarded state, a recovered
    panic, sequencing, and re-entrant calls of [WithKey] and [DoRedacted]. *)
Inductive Closure : Type :=
| CReturn (v : option Value)
| CPanic (e : Error)
| COutside (f : Ext -> Outcome (option Value) * Ext)
| CObserve
| CRecover (body : Closure)
| CSeq (first next : Closure)
| CWithKey (key : Key) (body : Closure)
| CDoRedacted (body : Closure).

Definition recover (body : M (option Value)) : M (option Value) :=
  fun w =>
    match body w with
    | (Val v, w') => (Val v, w')
    | (Panicked _, w') => (Val None, w')
    end.

Fixpoint runClosure (c : Closure) : M (option Value) :=
  match c with
  | CReturn v => ret v
  | CPanic e => panic e
  | COutside f =>
      fun w => let (r, e') := f (ext w) in (r, mkWorld (ic w) e' (trace w))
  | CObserve =>
      bind getIc (fun c =>
      bind (tell (Observed (nameStack c) (redacted c))) (fun _ => ret None))
  | CRecover body => recover (runClosure body)
  | CSeq first next => bind (runClosure first) (fun _ => runClosure next)
  | CWithKey key body => WithKey key (runClosure body)
  | CDoRedacted body => DoRedacted (runClosure body)
  end.

(** [c.WithKey(k1, ... c.WithKey(kn, body))]: a chain of nested lookups. *)
Fixpoint nested (keys : list Key) (body : Closure) : Closure :=
  match keys with
  | [] => body
  | k :: rest => CWithKey k (nested rest body)
  end.

(** The invocation [newInvocation] returns. *)
Definition newInvocation (sc : list (string * Value)) (ex : option Explainer)
  : ivContext :=
  mkIvContext [] sc None None ex topLevelMode false.

(** Modelled from the spec: the [first] strategy of the merge package,
    which is not among the sources (section 4.2: evaluate the candidates
    in order, return the first result that is not undefined, do not
    evaluate the later ones). *)
Fixpoint firstFound (candidates : list Location)
    (produce : Location -> M (option Value)) : M (option Value) :=
  match candidates with
  | [] => ret None
  | l :: rest =>
      bind (produce l) (fun v =>
        match v with
        | Some _ => ret v
        | None => firstFound rest produce
        end)
  end.

(** What the explainer of [c] receives for a frame around [inner]. *)
Definition framed (c : ivContext) (pushed : Call) (inner : list Call) : list Call :=
  match explainer c with
  | Some _ => [pushed] ++ inner ++ [Pop]
  | None => inner
  end.

(** What the explainer of [c] receives for a report. *)
Definition reported (c : ivContext) (accepted : Call) : list Call :=
  match explainer c with
  | Some _ => [accepted]
  | None => []
  end.

Definition isLookupKey (c : Call) : bool :=
  match c with CallLookupKey _ _ _ => true | _ => false end.

Definition isMergeLookup (c : Call) : bool :=
  match c with CallMergeLookup _ _ => true | _ => false end.

Definition isTopProvider (c : Call) : bool :=
  match c with CallTopProvider _ _ => true | _ => false end.

Definition count (p : Call -> bool) (calls : list Call) : nat :=
  length (filter (fun c => p c = true) calls).

(** Every read of the guarded state recorded in [added] satisfies [P]. *)
Definition observedIn (added : list Call) (P : list string -> bool -> Prop) : Prop :=
  forall names red, Observed names red ∈ added -> P names red.

Definition withNameStack (l : list string) (w : World) : World :=
  mkWorld (setNameStack l (ic w)) (ext w) (trace w).

Definition withRedacted (b : bool) (w : World) : World :=
  mkWorld (setRedacted b (ic w)) (ext w) (trace w).

(** The [merge] entry of the lookup options. *)
Definition mergeEntry (lookupOptions : option (list (string * Value))) : option Value :=
  match lookupOptions with
  | Some lo => Get lo "merge"
  | None => None
  end.

(** What [SetMergeStrategy] leaves when [merge.GetStrategy] is asked for
    [name] with [opts], after telling the explainer [told]. *)
Definition installs (lookupOptions : option (list (string * Value)))
    (told : list Call) (name : string) (opts : option (list (string * Value)))
    (w : World) : Outcome unit * World :=
  let asked := trace w ++ told ++ [CallGetStrategy name opts] in
  match GetStrategy name opts with
  | Val s =>
      (Val tt,
       mkWorld (setStrategy (Some s) (setLuOpts lookupOptions (ic w))) (ext w) asked)
  | Panicked e =>
      (Panicked e, mkWorld (setLuOpts lookupOptions (ic w)) (ext w) asked)
  end.

(** The value handed to [vf.New]: the value itself, or the arguments
    made of it and the constructor arguments. *)
Definition newArgument (v : Value) (convertToArgs : option (list Value)) : Value :=
  match convertToArgs with
  | Some args => VArguments (v :: args)
  | None => v
  end.

(** [vf.New] on the value obtained, recorded in the trace. *)
Definition constructed (t : DType) (v : Value) (w : World)
  : Outcome (option Value) * World :=
  (match New t v with
   | Val r => Val (Some r)
   | Panicked e => Panicked e
   end,
   mkWorld (ic w) (ext w) (trace w ++ [CallNew t v])).

(** *** Scopes and lazily produced text (lines 568-577, 727-731) *)

Definition setScope (sc : list (string * Value)) (c : ivContext) : ivContext :=
  mkIvContext (nameStack c) sc (luOpts c) (strategy c) (explainer c) (mode c)
    (redacted c).

(** The scope is put back by a plain assignment after [doer()], not by a
    deferred call.  As for [DoRedacted], the result of [doer] stands for
    what the Go closure assigns to the variables it captures. *)
Definition DoWithScope {A} (sc' : list (string * Value)) (doer : M A) : M A :=
  bind getIc (fun c =>
    let sc := scope c in
    bind (setIc (setScope sc')) (fun _ =>
    bind doer (fun r =>
    bind (setIc (setScope sc)) (fun _ => ret r)))).

(** The message producer is a closure over the outside world. *)
Definition ReportText (messageProducer : Ext -> Outcome string * Ext) : M unit :=
  bind getIc (fun c =>
    match explainer c with
    | None => ret tt
    | Some _ =>
        fun w =>
          match messageProducer (ext w) with
          | (Val msg, e') => (Val tt, mkWorld (ic w) e' (trace w ++ [AcceptText msg]))
          | (Panicked e, e') => (Panicked e, mkWorld (ic w) e' (trace w))
          end
    end).

(** The eight [With...] methods and the five [Report...] methods that
    take values. *)
Inductive Frame : Type :=
| FDataProvider (p : DataProvider)
| FInterpolation (expr : string)
| FInvalidKey (key : Key)
| FLocation (loc : Location)
| FLookup (key : Key)
| FMerge (ms : Strategy)
| FSegment (seg : string + Z)
| FSubLookup (key : Key).

Inductive Report : Type :=
| RLocationNotFound
| RFound (key : Key) (value : option Value)
| RMergeResult (value : option Value)
| RMergeSource (source : string)
| RNotFound (key : Key).

Definition within {A} (f : Frame) (actor : M A) : M A :=
  match f with
  | FDataProvider p => WithDataProvider p actor
  | FInterpolation expr => WithInterpolation expr actor
  | FInvalidKey key => WithInvalidKey key actor
  | FLocation loc => WithLocation loc actor
  | FLookup key => WithLookup key actor
  | FMerge ms => WithMerge ms actor
  | FSegment seg => WithSegment seg actor
  | FSubLookup key => WithSubLookup key actor
  end.

Definition reports (r : Report) : M unit :=
  match r with
  | RLocationNotFound => ReportLocationNotFound
  | RFound key value => ReportFound key value
  | RMergeResult value => ReportMergeResult value
  | RMergeSource source => ReportMergeSource source
  | RNotFound key => ReportNotFound key
  end.

(** Code that explains itself: returns and panics, reports, lazily
    produced text, frames, scopes, sequences and recovered panics. *)
Inductive Explained : Type :=
| EReturn (v : option Value)
| EPanic (e : Error)
| EReport (r : Report)
| EText (messageProducer : Ext -> Outcome string * Ext)
| EFrame (f : Frame) (body : Explained)
| EScope (sc : list (string * Value)) (body : Explained)
| ESeq (first next : Explained)
| ERecover (body : Explained).

Fixpoint runExplained (p : Explained) : M (option Value) :=
  match p with
  | EReturn v => ret v
  | EPanic e => panic e
  | EReport r => bind (reports r) (fun _ => ret None)
  | EText messageProducer => bind (ReportText messageProducer) (fun _ => ret None)
  | EFrame f body => within f (runExplained body)
  | EScope sc body => DoWithScope sc (runExplained body)
  | ESeq first next => bind (runExplained first) (fun _ => runExplained next)
  | ERecover body => recover (runExplained body)
  end.

Definition isPush (c : Call) : bool :=
  match c with
  | PushDataProvider _ | PushInterpolation _ | PushInvalidKey _ | PushLocation _
  | PushLookup _ | PushMerge _ | PushSegment _ | PushSubLookup _ => true
  | _ => false
  end.

Definition isPop (c : Call) : bool :=
  match c with Pop => true | _ => false end.

(** The number of open frames after [calls], starting from [d] open
    frames; [None] when a frame is popped that was not pushed. *)
Fixpoint openFrames (d : nat) (calls : list Call) : option nat :=
  match calls with
  | [] => Some d
  | c :: rest =>
      if isPush c then openFrames (S d) rest
      else if isPop c then
        match d with
        | 0 => None
        | S d' => openFrames d' rest
        end
      else openFrames d rest
  end.

Definition withScope (sc : list (string * Value)) (w : World) : World :=
  mkWorld (setScope sc (ic w)) (ext w) (trace w).

(** The call a frame opens with. *)
Definition pushOf (f : Frame) : Call :=
  match f with
  | FDataProvider p => PushDataProvider p
  | FInterpolation expr => PushInterpolation expr
  | FInvalidKey key => PushInvalidKey key
  | FLocation loc => PushLocation loc
  | FLookup key => PushLookup key
  | FMerge ms => PushMerge ms
  | FSegment seg => PushSegment seg
  | FSubLookup key => PushSubLookup key
  end.

(** The call a report makes. *)
Definition acceptOf (r : Report) : Call :=
  match r with
  | RLocationNotFound => AcceptLocationNotFound
  | RFound key value => AcceptFound key value
  | RMergeResult value => AcceptMergeResult value
  | RMergeSource source => AcceptMergeSource source
  | RNotFound key => AcceptNotFound key
  end.

(** The fields a narrowed copy shares with the invocation it was made of. *)
Definition sameLookupState (a b : ivContext) : Prop :=
  nameStack a = nameStack b /\ scope a = scope b /\ luOpts a = luOpts b /\
  strategy a = strategy b /\ redacted a = redacted b.

Definition isString (v : Value) : bool :=
  match v with VString _ => true | _ => false end.

Definition isArray (v : Value) : bool :=
  match v with VArray _ => true | _ => false end.

Definition isMap (v : Value) : bool :=
  match v with VMap _ => true | _ => false end.

(** The option [SetMergeStrategy] reads the strategy from. *)
Definition selectedOption (cli : option Value)
    (lookupOptions : option (list (string * Value))) : option Value :=
  match cli with Some o => Some o | None => mergeEntry lookupOptions end.

(** ** Properties *)

Lemma ContainsString_elem (l : list string) (s : string) :
  ContainsString l s = true <-> s ∈ l.
Proof.
  unfold ContainsString. rewrite existsb_exists. split.
  - intros (x & Hx & He). apply String.eqb_eq in He. subst x.
    by apply list_elem_of_In.
  - intros H. exists s. split; [by apply list_elem_of_In | apply String.eqb_refl].
Qed.

Lemma ContainsString_not_elem (l : list string) (s : string) :
  ContainsString l s = false <-> s ∉ l.
Proof.
  rewrite <- ContainsString_elem. destruct (ContainsString l s); split; congruence.
Qed.

Lemma setNameStack_pop (c : ivContext) (l : list string) (x : string) :
  nameStack c = l ->
  setNameStack (removelast (l ++ [x])) (setNameStack (l ++ [x]) c) = c.
Proof.
  intros <-. rewrite removelast_last. by destruct c.
Qed.

Lemma popName_pushed (w : World) (l : list string) (x : string) :
  nameStack (ic w) = l ++ [x] ->
  popName w = (Val tt, mkWorld (setNameStack l (ic w)) (ext w) (trace w)).
Proof.
  intros H. unfold popName, bind, getIc, setIc, panic. rewrite H.
  rewrite removelast_last. by destruct l.
Qed.

Lemma setNameStack_restore (c : ivContext) (l : list string) :
  setNameStack (nameStack c) (setNameStack l c) = c.
Proof. by destruct c. Qed.

Lemma closure_frame (c : Closure) :
  forall (w : World) r w',
    runClosure c w = (r, w') ->
    exists added,
      ic w' = ic w /\
      trace w' = trace w ++ added /\
      (redacted (ic w) = true -> observedIn added (fun _ red => red = true)) /\
      (NoDup (nameStack (ic w)) -> observedIn added (fun names _ => NoDup names)).
Proof.
  induction c as [v|e|f| |body IH|c1 IH1 c2 IH2|key body IH|body IH];
    intros w r w' Hrun; cbn in Hrun.
  - injection Hrun as <- <-. exists []. rewrite app_nil_r.
    repeat split; intros ? ? ? H; inversion H.
  - injection Hrun as <- <-. exists []. rewrite app_nil_r.
    repeat split; intros ? ? ? H; inversion H.
  - destruct (f (ext w)). injection Hrun as <- <-. exists []. cbn.
    rewrite app_nil_r. repeat split; intros ? ? ? H; inversion H.
  - injection Hrun as <- <-.
    exists [Observed (nameStack (ic w)) (redacted (ic w))]. cbn.
    repeat split; intros Hw ? ? H; apply list_elem_of_singleton in H;
      injection H as -> ->; done.
  - unfold recover in Hrun.
    destruct (runClosure body w) as [r0 w0] eqn:Hb.
    destruct (IH _ _ _ Hb) as (added & Hic & Htr & Hred & Hnd).
    exists added. destruct r0; injection Hrun as <- <-; done.
  - unfold bind in Hrun.
    destruct (runClosure c1 w) as [r1 w1] eqn:H1.
    destruct (IH1 _ _ _ H1) as (a1 & Hic1 & Htr1 & Hred1 & Hnd1).
    destruct r1 as [v|e].
    + destruct (IH2 _ _ _ Hrun) as (a2 & Hic2 & Htr2 & Hred2 & Hnd2).
      exists (a1 ++ a2). rewrite Hic2, Htr2, Hic1, Htr1, app_assoc.
      rewrite Hic1 in Hred2, Hnd2.
      repeat split; intros Hw ? ? H; apply elem_of_app in H as [H|H].
      * by apply (Hred1 Hw _ _ H).
      * by apply (Hred2 Hw _ _ H).
      * by apply (Hnd1 Hw _ _ H).
      * by apply (Hnd2 Hw _ _ H).
    + injection Hrun as <- <-. exists a1. done.
  - unfold WithKey, bind, getIc in Hrun.
    destruct (ContainsString (nameStack (ic w)) (Source key)) eqn:Hc.
    + injection Hrun as <- <-. exists []. rewrite app_nil_r.
      repeat split; intros ? ? ? H; inversion H.
    + apply ContainsString_not_elem in Hc.
      unfold setIc, defer in Hrun.
      destruct (runClosure body _) as [r2 w2] eqn:Hb.
      destruct (IH _ _ _ Hb) as (added & Hic & Htr & Hred & Hnd).
      cbn in Hic, Htr, Hred, Hnd.
      rewrite (popName_pushed w2 (nameStack (ic w)) (Source key)) in Hrun
        by (by rewrite Hic).
      rewrite Hic, setNameStack_restore in Hrun.
      injection Hrun as <- <-. exists added. cbn.
      repeat split; [done|..].
      * intros Hw. apply Hred. by destruct (ic w).
      * intros Hw. apply Hnd.
        apply NoDup_app. repeat split; [done| |apply NoDup_singleton].
        intros x Hx Hx'. apply list_elem_of_singleton in Hx'. by subst.
  - unfold DoRedacted, bind, getIc in Hrun.
    destruct (redacted (ic w)) eqn:Hr.
    + destruct (IH _ _ _ Hrun) as (added & Hic & Htr & Hred & Hnd). exists added.
      rewrite Hr in Hred. done.
    + unfold defer, setIc in Hrun.
      destruct (runClosure body _) as [r2 w2] eqn:Hb.
      destruct (IH _ _ _ Hb) as (added & Hic & Htr & Hred & Hnd).
      cbn in Hic, Htr, Hred, Hnd. cbn in Hrun. injection Hrun as <- <-.
      exists added. cbn. rewrite Hic.
      repeat split; [|done|done|].
      * destruct (ic w); cbn in *; by subst.
      * intros Hw. apply Hnd. by destruct (ic w).
Qed.

Lemma withNameStack_same (w : World) : withNameStack (nameStack (ic w)) w = w.
Proof. by destruct w as [[] ? ?]. Qed.

Lemma withRedacted_same (w : World) : withRedacted (redacted (ic w)) w = w.
Proof. by destruct w as [[] ? ?]. Qed.

Lemma WithKey_present {A} (key : Key) (actor : M A) (w : World) :
  Source key ∈ nameStack (ic w) ->
  WithKey key actor w = (Panicked (RecursiveLookup (nameStack (ic w))), w).
Proof.
  intros H. apply ContainsString_elem in H.
  unfold WithKey, bind, getIc, panic. by rewrite H.
Qed.

Lemma WithKey_absent {A} (key : Key) (actor : M A) (w : World) :
  Source key ∉ nameStack (ic w) ->
  WithKey key actor w =
    defer popName actor (withNameStack (nameStack (ic w) ++ [Source key]) w).
Proof.
  intros H. apply ContainsString_not_elem in H.
  unfold WithKey, bind, getIc, setIc. by rewrite H.
Qed.

Lemma WithKey_closure (key : Key) (body : Closure) (w : World) r w2 :
  Source key ∉ nameStack (ic w) ->
  runClosure body (withNameStack (nameStack (ic w) ++ [Source key]) w) = (r, w2) ->
  WithKey key (runClosure body) w = (r, withNameStack (nameStack (ic w)) w2) /\
  ic (withNameStack (nameStack (ic w)) w2) = ic w.
Proof.
  intros Hk Hb. rewrite WithKey_absent by done. unfold defer. rewrite Hb.
  destruct (closure_frame _ _ _ _ Hb) as (added & Hic & _).
  cbn in Hic.
  rewrite (popName_pushed w2 (nameStack (ic w)) (Source key)) by (by rewrite Hic).
  split; [done|]. cbn. rewrite Hic. apply setNameStack_restore.
Qed.

Lemma nested_duplicate (keys : list Key) (body : Closure) :
  forall w : World,
    NoDup (nameStack (ic w)) ->
    ~ NoDup (nameStack (ic w) ++ map Source keys) ->
    exists names, (runClosure (nested keys body) w).1 = Panicked (RecursiveLookup names).
Proof.
  induction keys as [|k rest IH]; intros w Hnd Hdup.
  - cbn in Hdup. rewrite app_nil_r in Hdup. done.
  - change (runClosure (nested (k :: rest) body))
      with (WithKey k (runClosure (nested rest body))).
    change (map Source (k :: rest)) with ([Source k] ++ map Source rest) in Hdup.
    destruct (decide (Source k ∈ nameStack (ic w))) as [Hin|Hin].
    + rewrite WithKey_present by done. by eexists.
    + destruct (runClosure (nested rest body)
                  (withNameStack (nameStack (ic w) ++ [Source k]) w)) as [r w2] eqn:Hb.
      destruct (WithKey_closure k (nested rest body) w r w2 Hin Hb) as [-> _].
      cbn. specialize (IH (withNameStack (nameStack (ic w) ++ [Source k]) w)).
      rewrite Hb in IH. cbn in IH. apply IH.
      * apply NoDup_app. repeat split; [done| |apply NoDup_singleton].
        intros x Hx Hx'. apply list_elem_of_singleton in Hx'. by subst.
      * cbn. by rewrite <- app_assoc.
Qed.

Lemma nested_app (outer inner : list Key) (body : Closure) :
  nested (outer ++ inner) body = nested outer (nested inner body).
Proof. induction outer as [|k outer IH]; cbn; by rewrite ?IH. Qed.

(** C2: [WithKey] raises the recursive-lookup error exactly when the
    source of the key is on the name stack, and then runs nothing.
    Otherwise the actor runs with the source pushed and, whether it
    returns or panics, the name stack is as before afterwards: for every
    actor that leaves the stack as it finds it, and so for every closure
    over the engine (for which the whole invocation is as before).
    From a duplicate-free stack every stack that code inside the actor
    can read is duplicate-free; a chain of nested lookups that names a
    source a second time, at any depth, ends in the recursive-lookup
    error with the invocation restored; and over [n] distinct sources no
    chain nests deeper than [n]. *)
Theorem WithKey_detects_recursion (key : Key) (w : World) :
  ((forall (A : Type) (actor : M A),
      WithKey key actor w = (Panicked (RecursiveLookup (nameStack (ic w))), w))
   <-> Source key ∈ nameStack (ic w)) /\
  (Source key ∉ nameStack (ic w) ->
   forall (A : Type) (actor : M A),
     (forall w', nameStack (ic (actor w').2) = nameStack (ic w')) ->
     let entered := actor (withNameStack (nameStack (ic w) ++ [Source key]) w) in
     WithKey key actor w = (entered.1, withNameStack (nameStack (ic w)) entered.2)) /\
  (Source key ∉ nameStack (ic w) ->
   forall body : Closure,
     let entered := runClosure body (withNameStack (nameStack (ic w) ++ [Source key]) w) in
     WithKey key (runClosure body) w =
       (entered.1, withNameStack (nameStack (ic w)) entered.2) /\
     ic (WithKey key (runClosure body) w).2 = ic w) /\
  (NoDup (nameStack (ic w)) ->
   forall body : Closure,
     exists added,
       trace (runClosure (CWithKey key body) w).2 = trace w ++ added /\
       observedIn added (fun names _ => NoDup names)) /\
  (NoDup (nameStack (ic w)) ->
   forall (outer inner : list Key) (again : Key) (body : Closure),
     Source again = Source key ->
     let run := runClosure (nested (outer ++ key :: inner) (CWithKey again body)) w in
     (exists names, run.1 = Panicked (RecursiveLookup names)) /\ ic run.2 = ic w) /\
  (NoDup (nameStack (ic w)) ->
   forall (sources : list string) (keys : list Key) (body : Closure),
     (forall k, k ∈ keys -> Source k ∈ sources) ->
     length sources < length keys ->
     exists names, (runClosure (nested keys body) w).1 = Panicked (RecursiveLookup names)).
Proof.
  split; [|split; [|split; [|split; [|split]]]].
  - split.
    + intros H. destruct (decide (Source key ∈ nameStack (ic w))) as [|Hin]; [done|].
      specialize (H unit (ret tt)). rewrite WithKey_absent in H by done.
      unfold defer, ret in H.
      rewrite (popName_pushed _ (nameStack (ic w)) (Source key)) in H by done.
      discriminate.
    + intros H A actor. by apply WithKey_present.
  - intros Hk A actor Hbal. cbn zeta. rewrite WithKey_absent by done. unfold defer.
    specialize (Hbal (withNameStack (nameStack (ic w) ++ [Source key]) w)).
    destruct (actor _) as [r w2] eqn:Hb.
    by rewrite (popName_pushed w2 (nameStack (ic w)) (Source key)).
  - intros Hk body. cbn zeta.
    destruct (runClosure body (withNameStack (nameStack (ic w) ++ [Source key]) w))
      as [r w2] eqn:Hb.
    by destruct (WithKey_closure key body w r w2 Hk Hb) as [-> ?].
  - intros Hnd body.
    destruct (runClosure (CWithKey key body) w) as [r w'] eqn:Hrun.
    destruct (closure_frame _ _ _ _ Hrun) as (added & _ & Htr & _ & Hobs).
    exists added. split; [done|]. by apply Hobs.
  - intros Hnd outer inner again body Hsrc. cbn zeta. split.
    + change (CWithKey again body) with (nested [again] body).
      rewrite <- nested_app. apply nested_duplicate; [done|].
      rewrite map_app. intros Hdup.
      apply NoDup_app in Hdup as (_ & _ & Hdup).
      apply NoDup_app in Hdup as (_ & Hdup & _).
      apply (Hdup (Source key)).
      * apply list_elem_of_fmap. exists key. split; [done|].
        apply elem_of_app. right. left.
      * cbn. rewrite Hsrc. left.
    + destruct (runClosure _ w) as [r w'] eqn:Hrun.
      by destruct (closure_frame _ _ _ _ Hrun) as (added & Hic & _).
  - intros Hnd sources keys body Hsrc Hlen.
    apply nested_duplicate; [done|]. intros Hnd'.
    apply NoDup_app in Hnd' as (_ & _ & Hnd').
    assert (Hle : length (map Source keys) <= length sources).
    { apply submseteq_length, NoDup_submseteq; [done|].
      intros x Hx. apply list_elem_of_fmap in Hx as (k & -> & Hk). by apply Hsrc. }
    rewrite length_map in Hle. lia.
Qed.

Lemma DoRedacted_clear {A} (doer : M A) (w : World) :
  redacted (ic w) = false ->
  DoRedacted doer w =
    ((doer (withRedacted true w)).1, withRedacted false (doer (withRedacted true w)).2).
Proof.
  intros H. unfold DoRedacted, bind, getIc, defer, setIc. rewrite H. cbn.
  fold (withRedacted true w). by destruct (doer (withRedacted true w)).
Qed.

Lemma DoRedacted_set {A} (doer : M A) (w : World) :
  redacted (ic w) = true -> DoRedacted doer w = doer w.
Proof. intros H. unfold DoRedacted, bind, getIc. by rewrite H. Qed.

(** C10: [DoRedacted] runs the doer with the flag set, and when it is
    over the flag is what it was at entry: entered with the flag clear it
    is reset to false, for every doer and also when the doer panics;
    entered with the flag set (a nested call) it is still set.  Code
    inside the doer reads the flag as set throughout, and code that runs
    right after the call, also after a recovered panic, reads the flag
    of before. *)
Theorem DoRedacted_scopes_redaction (doer : Closure) (w : World) :
  let inside := runClosure doer (withRedacted true w) in
  DoRedacted (runClosure doer) w =
    (inside.1, withRedacted (redacted (ic w)) inside.2) /\
  redacted (ic (withRedacted true w)) = true /\
  redacted (ic (DoRedacted (runClosure doer) w).2) = redacted (ic w) /\
  (redacted (ic w) = false ->
   forall (A : Type) (d : M A), redacted (ic (DoRedacted d w).2) = false) /\
  (redacted (ic w) = true ->
   (forall (A : Type) (d : M A), DoRedacted d w = d w) /\
   redacted (ic (runClosure (CDoRedacted doer) w).2) = true) /\
  (exists added,
     trace (DoRedacted (runClosure doer) w).2 = trace w ++ added /\
     observedIn added (fun _ red => red = true)) /\
  (exists added,
     trace (runClosure (CSeq (CRecover (CDoRedacted doer)) CObserve) w).2 =
       trace w ++ added ++ [Observed (nameStack (ic w)) (redacted (ic w))]).
Proof.
  cbn zeta.
  destruct (runClosure doer (withRedacted true w)) as [r w2] eqn:Hin.
  destruct (closure_frame _ _ _ _ Hin) as (added & Hic & Htr & Hred & _).
  cbn [fst snd].
  assert (Hrun : DoRedacted (runClosure doer) w = (r, withRedacted (redacted (ic w)) w2)).
  { destruct (redacted (ic w)) eqn:Hr.
    - rewrite DoRedacted_set by done.
      assert (Hw : withRedacted true w = w) by (rewrite <- Hr; apply withRedacted_same).
      rewrite Hw in Hin, Hic. rewrite Hin. f_equal.
      rewrite <- (withRedacted_same w2) at 1. by rewrite Hic, Hr.
    - rewrite DoRedacted_clear by done. by rewrite Hin. }
  assert (Hflag : redacted (ic (withRedacted (redacted (ic w)) w2)) = redacted (ic w)) by done.
  repeat split.
  - done.
  - by rewrite Hrun.
  - intros Hr A d. by rewrite DoRedacted_clear.
  - intros A d. by apply DoRedacted_set.
  - change (runClosure (CDoRedacted doer)) with (DoRedacted (runClosure doer)).
    by rewrite Hrun.
  - exists added. rewrite Hrun. split; [done|]. by apply Hred.
  - exists added. cbn [runClosure]. unfold bind at 1, recover.
    change (runClosure (CDoRedacted doer)) with (DoRedacted (runClosure doer)).
    rewrite Hrun.
    assert (Hic' : ic (withRedacted (redacted (ic w)) w2) = ic w).
    { unfold withRedacted at 1. cbn [ic]. rewrite Hic.
      unfold withRedacted. cbn [ic]. by destruct (ic w). }
    destruct r; unfold bind, getIc, tell, ret; cbn [fst snd trace];
      rewrite Hic'; change (trace (withRedacted (redacted (ic w)) w2)) with (trace w2);
      by rewrite Htr, <- app_assoc.
Qed.

(** Unfolds the monad and the explain plumbing. *)
Ltac engine :=
  unfold WithInvalidKey, WithDataProvider, WithLocation, withFrame,
    ReportNotFound, ReportLocationNotFound, ReportMergeSource, report,
    pureCall, outside, bind, getIc, setIc, defer, tell, ret, panic,
    framed, reported.

(** C3: for a key rooted at [lookup_options], [Lookup] returns undefined
    and calls neither the top-level provider nor the merge machinery:
    all it does is report the key as not found to the explainer, inside
    an invalid-key frame (nothing at all without an explainer). *)
Theorem Lookup_lookup_options (key : Key) (options : option (list (string * Value)))
    (w : World) :
  Root key = "lookup_options" ->
  let told := framed (ic w) (PushInvalidKey key) (reported (ic w) (AcceptNotFound key)) in
  Lookup key options w = (Val None, mkWorld (ic w) (ext w) (trace w ++ told)) /\
  count isTopProvider told = 0 /\
  count isMergeLookup told = 0 /\
  count isLookupKey told = 0.
Proof.
  intros Hroot. cbn zeta. split.
  - unfold Lookup. rewrite Hroot. cbn [String.eqb Ascii.eqb Bool.eqb]. engine.
    destruct w as [c e t]. cbn. destruct (explainer c) eqn:He; cbn; rewrite ?He; cbn.
    + by rewrite <- !app_assoc.
    + by rewrite app_nil_r.
  - unfold framed, reported. by destruct (explainer (ic w)).
Qed.

Lemma ForData_mode (c : ivContext) :
  DataMode (ForData c) = true /\
  nameStack (ForData c) = nameStack c /\
  scope (ForData c) = scope c /\
  luOpts (ForData c) = luOpts c /\
  strategy (ForData c) = strategy c /\
  redacted (ForData c) = redacted c.
Proof.
  unfold ForData. destruct (DataMode c) eqn:Hm; [done|]. cbn. done.
Qed.

(** C4, as the code has it: for a key not rooted at [lookup_options],
    [Lookup] calls the top-level provider with a server context of this
    invocation and the root of the key.  A defined value is interpolated
    (methods allowed) and dug into with the key, both on the data-mode
    invocation [ForData], and the result of [Dig] is returned.  When the
    provider returns undefined, [Lookup] returns undefined and, unlike
    the [lookup_options] branch, reports nothing to the explainer. *)
Theorem Lookup_top_provider (key : Key) (options : option (list (string * Value)))
    (w : World) :
  Root key <> "lookup_options" ->
  let sc := ServerContext (ic w) options in
  let dc := ForData (ic w) in
  let called := trace w ++ [CallTopProvider sc (Root key)] in
  (forall e1,
     TopProvider sc (Root key) (ext w) = (Val None, e1) ->
     Lookup key options w = (Val None, mkWorld (ic w) e1 called)) /\
  (forall v0 e1 v1 e2,
     TopProvider sc (Root key) (ext w) = (Val (Some v0), e1) ->
     Interpolate dc v0 true e1 = (Val v1, e2) ->
     Lookup key options w =
       ((Dig key dc v1 e2).1,
        mkWorld (ic w) (Dig key dc v1 e2).2
          (called ++ [CallInterpolate dc v0 true; CallDig key dc v1]))) /\
  (DataMode dc = true /\ nameStack dc = nameStack (ic w) /\
   redacted dc = redacted (ic w)) /\
  (forall e e1,
     TopProvider sc (Root key) (ext w) = (Panicked e, e1) ->
     Lookup key options w = (Panicked e, mkWorld (ic w) e1 called)).
Proof.
  intros Hroot. apply String.eqb_neq in Hroot. cbn zeta.
  unfold Lookup. rewrite Hroot. engine. cbn [ic ext trace].
  repeat split.
  - intros e1 ->. done.
  - intros v0 e1 v1 e2 -> . cbn [ic ext trace]. intros ->. cbn [ic ext trace].
    destruct (Dig _ _ _ _). cbn. by rewrite <- app_assoc.
  - apply ForData_mode.
  - apply ForData_mode.
  - apply ForData_mode.
  - intros e e1 ->. done.
Qed.

Lemma invokeWithLocation_nil (dh : DataProvider) (key : Key) (w : World) :
  invokeWithLocation dh None key w =
    ((LookupKey dh key (ic w) None (ext w)).1,
     mkWorld (ic w) (LookupKey dh key (ic w) None (ext w)).2
       (trace w ++ [CallLookupKey dh key None])).
Proof.
  unfold invokeWithLocation. engine. by destruct (LookupKey _ _ _ _ _).
Qed.

Lemma invokeWithLocation_exists (dh : DataProvider) (loc : Location) (key : Key)
    (w : World) :
  Exists loc (ext w) = true ->
  invokeWithLocation dh (Some loc) key w =
    ((LookupKey dh key (ic w) (Some loc) (ext w)).1,
     mkWorld (ic w) (LookupKey dh key (ic w) (Some loc) (ext w)).2
       (trace w ++ framed (ic w) (PushLocation loc) [CallLookupKey dh key (Some loc)])).
Proof.
  intros Hex. unfold invokeWithLocation. engine.
  destruct w as [c e t]. cbn in *.
  destruct (explainer c) eqn:He; cbn; rewrite Hex; cbn;
    destruct (LookupKey _ _ _ _ _); cbn; by rewrite <- ?app_assoc.
Qed.

Lemma invokeWithLocation_missing (dh : DataProvider) (loc : Location) (key : Key)
    (w : World) :
  Exists loc (ext w) = false ->
  invokeWithLocation dh (Some loc) key w =
    (Val None,
     mkWorld (ic w) (ext w)
       (trace w ++ framed (ic w) (PushLocation loc) (reported (ic w) AcceptLocationNotFound))).
Proof.
  intros Hex. unfold invokeWithLocation. engine.
  destruct w as [c e t]. cbn in *.
  destruct (explainer c) eqn:He; cbn; rewrite Hex; cbn; rewrite ?He; cbn.
  - by rewrite <- !app_assoc.
  - by rewrite app_nil_r.
Qed.

Lemma WithDataProvider_run {A} (dh : DataProvider) (actor : M A) (w : World)
    (r : Outcome A) (e' : Ext) (inner : list Call) :
  (forall t, actor (mkWorld (ic w) (ext w) t) = (r, mkWorld (ic w) e' (t ++ inner))) ->
  WithDataProvider dh actor w =
    (r, mkWorld (ic w) e' (trace w ++ framed (ic w) (PushDataProvider dh) inner)).
Proof.
  intros Hrun. engine. destruct w as [c e t]. cbn in *.
  destruct (explainer c); cbn; rewrite Hrun; cbn; by rewrite <- ?app_assoc.
Qed.

Lemma count_framed (p : Call -> bool) (c : ivContext) (pushed : Call)
    (inner : list Call) :
  p pushed = false -> p Pop = false ->
  count p (framed c pushed inner) = count p inner.
Proof.
  intros Hpush Hpop. unfold framed, count. destruct (explainer c); [|done].
  rewrite !filter_app, !length_app. cbn.
  rewrite !decide_False by congruence. cbn. lia.
Qed.

Lemma count_reported (p : Call -> bool) (c : ivContext) (accepted : Call) :
  p accepted = false -> count p (reported c accepted) = 0.
Proof.
  intros H. unfold reported, count. destruct (explainer c); [|done].
  cbn. by rewrite decide_False by congruence.
Qed.

(** C5, as the code has it: without locations [MergeLocations] calls
    [LookupKey] of the provider once, with no location; with one
    location that exists it calls it once, with that location; with one
    location that does not exist it does not call it (the guard of
    [invokeWithLocation]).  In none of these cases is the merge strategy
    applied; with two or more locations the outcome is that of the
    strategy's [MergeLookup] over the locations, each visited through
    [invokeWithLocation]. *)
Theorem MergeLocations_by_count (key : Key) (dh : DataProvider) (merge : Strategy)
    (w : World) :
  let c := ic w in
  let direct l := [CallLookupKey dh key l] in
  let inProvider := framed c (PushDataProvider dh) in
  (Locations dh = [] ->
   MergeLocations key dh merge w =
     ((LookupKey dh key c None (ext w)).1,
      mkWorld c (LookupKey dh key c None (ext w)).2
        (trace w ++ inProvider (direct None))) /\
   count isLookupKey (inProvider (direct None)) = 1 /\
   count isMergeLookup (inProvider (direct None)) = 0) /\
  (forall l0,
     Locations dh = [l0] -> Exists l0 (ext w) = true ->
     let told := inProvider (framed c (PushLocation l0) (direct (Some l0))) in
     MergeLocations key dh merge w =
       ((LookupKey dh key c (Some l0) (ext w)).1,
        mkWorld c (LookupKey dh key c (Some l0) (ext w)).2 (trace w ++ told)) /\
     count isLookupKey told = 1 /\
     count isMergeLookup told = 0) /\
  (forall l0,
     Locations dh = [l0] -> Exists l0 (ext w) = false ->
     let told :=
       inProvider (framed c (PushLocation l0) (reported c AcceptLocationNotFound)) in
     MergeLocations key dh merge w = (Val None, mkWorld c (ext w) (trace w ++ told)) /\
     count isLookupKey told = 0 /\
     count isMergeLookup told = 0) /\
  (forall l0 l1 rest,
     Locations dh = l0 :: l1 :: rest ->
     MergeLocations key dh merge w =
       WithDataProvider dh
         (bind (tell (CallMergeLookup merge (Locations dh))) (fun _ =>
            MergeLookup merge (Locations dh) (fun location =>
              invokeWithLocation dh (Some location) key))) w).
Proof.
  cbn zeta. split; [|split; [|split]].
  - intros Hl. repeat split.
    + unfold MergeLocations. rewrite Hl.
      apply WithDataProvider_run. intros t.
      rewrite invokeWithLocation_nil. done.
    + by rewrite count_framed.
    + by rewrite count_framed.
  - intros l0 Hl Hex. repeat split.
    + unfold MergeLocations. rewrite Hl.
      apply WithDataProvider_run. intros t.
      rewrite invokeWithLocation_exists by done. done.
    + by rewrite !count_framed.
    + by rewrite !count_framed.
  - intros l0 Hl Hex. repeat split.
    + unfold MergeLocations. rewrite Hl.
      erewrite (WithDataProvider_run dh _ w (Val None) (ext w)); [done|].
      intros t. rewrite invokeWithLocation_missing by done. done.
    + rewrite !count_framed by done. by apply count_reported.
    + rewrite !count_framed by done. by apply count_reported.
  - intros l0 l1 rest Hl. unfold MergeLocations. by rewrite Hl.
Qed.

(** C6: at a location that does not exist the provider's [LookupKey] is
    not called; location-not-found is reported to the explainer, inside
    the frame of the location, and the result is undefined, not a panic.
    Under the first-found strategy the search therefore goes on with the
    candidates that follow. *)
Theorem invokeWithLocation_not_found (dh : DataProvider) (loc : Location) (key : Key)
    (w : World) :
  Exists loc (ext w) = false ->
  let told := framed (ic w) (PushLocation loc) (reported (ic w) AcceptLocationNotFound) in
  let after := mkWorld (ic w) (ext w) (trace w ++ told) in
  invokeWithLocation dh (Some loc) key w = (Val None, after) /\
  count isLookupKey told = 0 /\
  (ExplainMode (ic w) = true ->
   told = [PushLocation loc; AcceptLocationNotFound; Pop]) /\
  (forall rest,
     firstFound (loc :: rest) (fun l => invokeWithLocation dh (Some l) key) w =
     firstFound rest (fun l => invokeWithLocation dh (Some l) key) after).
Proof.
  intros Hex. cbn zeta. repeat split.
  - by apply invokeWithLocation_missing.
  - rewrite count_framed by done. by apply count_reported.
  - unfold ExplainMode, framed, reported. by destruct (explainer (ic w)).
  - intros rest. cbn [firstFound]. unfold bind at 1.
    by rewrite invokeWithLocation_missing.
Qed.

Lemma Get_Without (m : list (string * Value)) (k k' : string) :
  Get (Without m k) k' = if String.eqb k k' then None else Get m k'.
Proof.
  induction m as [|[k0 v] m IH]; cbn.
  - by destruct (String.eqb k k').
  - destruct (String.eqb k0 k) eqn:H0.
    + apply String.eqb_eq in H0. subst k0. rewrite IH.
      by destruct (String.eqb k k').
    + cbn. rewrite IH. destruct (String.eqb k0 k') eqn:H1; [|done].
      apply String.eqb_eq in H1. subst k0.
      rewrite String.eqb_sym in H0. by rewrite H0.
Qed.

Lemma SetMergeStrategy_run (cli : option Value)
    (lookupOptions : option (list (string * Value))) (w : World) :
  let selected := match cli with Some o => Some o | None => mergeEntry lookupOptions end in
  let told :=
    match cli, mergeEntry lookupOptions with
    | Some _, _ => reported (ic w) (AcceptMergeSource "CLI option")
    | None, Some _ =>
        reported (ic w)
          (AcceptMergeSource (dquote +:+ "lookup_options" +:+ dquote +:+ " hash"))
    | None, None => []
    end in
  SetMergeStrategy cli lookupOptions w =
    installs lookupOptions told (mergeNameAndOpts selected).1
      (mergeNameAndOpts selected).2 w.
Proof.
  cbn zeta. unfold SetMergeStrategy, installs, mergeOption, mergeEntry.
  destruct w as [c e t].
  destruct cli as [o|]; [|destruct lookupOptions as [lo|]; [destruct (Get lo "merge")|]];
    engine; cbn [ic ext trace]; destruct (explainer c) eqn:He; cbn [ic ext trace];
    destruct (mergeNameAndOpts _) as [name opts]; cbn [fst snd ic ext trace];
    destruct (GetStrategy name opts); cbn; rewrite <- ?app_assoc, ?app_nil_r; done.
Qed.

(** C8, as the code has it: [SetMergeStrategy] reads the strategy from
    the CLI merge option when there is one, whatever the lookup options
    say, and otherwise from the [merge] entry of the lookup options;
    when neither is there it asks [merge.GetStrategy] for [first]
    without options.  A string option is the name of the strategy; from
    a map option with a string [strategy] entry the name is that entry
    and the options are the other entries of the map; a map option
    without a string [strategy] entry asks for the strategy of the empty
    name without options, and an option that is neither a string nor a
    map asks for [first] without options.  The strategy obtained becomes
    the strategy of the invocation and the lookup options its [luOpts]. *)
Theorem SetMergeStrategy_precedence (cli : option Value)
    (lookupOptions : option (list (string * Value))) (w : World) :
  let cliSource := reported (ic w) (AcceptMergeSource "CLI option") in
  let optSource :=
    reported (ic w)
      (AcceptMergeSource (dquote +:+ "lookup_options" +:+ dquote +:+ " hash")) in
  (forall name,
     cli = Some (VString name) ->
     SetMergeStrategy cli lookupOptions w = installs lookupOptions cliSource name None w) /\
  (forall m name,
     cli = Some (VMap m) -> Get m "strategy" = Some (VString name) ->
     SetMergeStrategy cli lookupOptions w =
       installs lookupOptions cliSource name (Some (Without m "strategy")) w) /\
  (forall name,
     cli = None -> mergeEntry lookupOptions = Some (VString name) ->
     SetMergeStrategy cli lookupOptions w = installs lookupOptions optSource name None w) /\
  (forall m name,
     cli = None -> mergeEntry lookupOptions = Some (VMap m) ->
     Get m "strategy" = Some (VString name) ->
     SetMergeStrategy cli lookupOptions w =
       installs lookupOptions optSource name (Some (Without m "strategy")) w) /\
  (cli = None -> mergeEntry lookupOptions = None ->
   SetMergeStrategy cli lookupOptions w = installs lookupOptions [] "first" None w) /\
  (forall m,
     cli = Some (VMap m) -> (forall name, Get m "strategy" <> Some (VString name)) ->
     SetMergeStrategy cli lookupOptions w = installs lookupOptions cliSource "" None w) /\
  (forall m,
     cli = None -> mergeEntry lookupOptions = Some (VMap m) ->
     (forall name, Get m "strategy" <> Some (VString name)) ->
     SetMergeStrategy cli lookupOptions w = installs lookupOptions optSource "" None w) /\
  (forall o,
     cli = Some o -> isString o = false -> isMap o = false ->
     SetMergeStrategy cli lookupOptions w =
       installs lookupOptions cliSource "first" None w) /\
  (forall o,
     cli = None -> mergeEntry lookupOptions = Some o ->
     isString o = false -> isMap o = false ->
     SetMergeStrategy cli lookupOptions w =
       installs lookupOptions optSource "first" None w) /\
  (forall m,
     Get (Without m "strategy") "strategy" = None /\
     forall k, k <> "strategy" -> Get (Without m "strategy") k = Get m k) /\
  (forall name opts s told,
     GetStrategy name opts = Val s ->
     let after := (installs lookupOptions told name opts w).2 in
     strategy (ic after) = Some s /\ luOpts (ic after) = lookupOptions /\
     trace after = trace w ++ told ++ [CallGetStrategy name opts]).
Proof.
  cbn zeta. pose proof (SetMergeStrategy_run cli lookupOptions w) as Hrun.
  cbn zeta in Hrun.
  assert (Hnone : forall m,
            (forall name, Get m "strategy" <> Some (VString name)) ->
            mergeNameAndOpts (Some (VMap m)) = ("", None)).
  { intros m Hs. cbn. destruct (Get m "strategy") as [[]|] eqn:Hg; try done.
    by destruct (Hs s). }
  split; [|split; [|split; [|split; [|split; [|split; [|split; [|split;
    [|split; [|split]]]]]]]]].
  - intros name ->. done.
  - intros m name -> Hs. cbn in Hrun. by rewrite Hs in Hrun.
  - intros name -> Hm. by rewrite Hm in Hrun.
  - intros m name -> Hm Hs. rewrite Hm in Hrun. cbn in Hrun. by rewrite Hs in Hrun.
  - intros -> Hm. by rewrite Hm in Hrun.
  - intros m -> Hs. by rewrite (Hnone m Hs) in Hrun.
  - intros m -> Hm Hs. rewrite Hm in Hrun. by rewrite (Hnone m Hs) in Hrun.
  - intros o -> Ho1 Ho2. by destruct o.
  - intros o -> Hm Ho1 Ho2. rewrite Hm in Hrun. by destruct o.
  - intros m. split.
    + rewrite Get_Without. by rewrite String.eqb_refl.
    + intros k Hk. rewrite Get_Without.
      destruct (String.eqb "strategy" k) eqn:He; [|done].
      apply String.eqb_eq in He. congruence.
  - intros name opts s told Hs. unfold installs. by rewrite Hs.
Qed.

Lemma extractConversion_world (w : World) r w' :
  extractConversion w = (r, w') -> w' = w.
Proof.
  unfold extractConversion. engine.
  destruct (luOpts (ic w)) as [lo|]; [|by intros [= _ <-]].
  destruct (Get lo "convert_to") as [ct|]; [|by intros [= _ <-]].
  destruct ct as [|s|z|b|cm|m|a]; cbn;
    try (by intros [= _ <-]);
    try (destruct (ParseType s); by intros [= _ <-]).
  destruct cm as [|t0 [|t1 rest]]; cbn; [by intros [= _ <-]|..];
    destruct t0; try (by intros [= _ <-]);
    destruct (ParseType s); by intros [= _ <-].
Qed.

Lemma extractConversion_string (w : World) lo s ty :
  luOpts (ic w) = Some lo -> Get lo "convert_to" = Some (VString s) ->
  ParseType s = Val ty ->
  extractConversion w = (Val (Some ty, None), w).
Proof.
  intros Hlo Hct Hty. unfold extractConversion. engine.
  by rewrite Hlo, Hct, Hty.
Qed.

Lemma extractConversion_array (w : World) lo s rest ty :
  luOpts (ic w) = Some lo ->
  Get lo "convert_to" = Some (VArray (VString s :: rest)) ->
  ParseType s = Val ty ->
  extractConversion w =
    (Val (Some ty, match rest with [] => None | _ :: _ => Some rest end), w).
Proof.
  intros Hlo Hct Hty. unfold extractConversion. engine.
  rewrite Hlo, Hct. destruct rest; cbn; by rewrite Hty.
Qed.

Lemma extractConversion_none (w : World) :
  (luOpts (ic w) = None \/
   exists lo, luOpts (ic w) = Some lo /\ Get lo "convert_to" = None) ->
  extractConversion w = (Val (None, None), w).
Proof.
  unfold extractConversion. engine. intros [H|(lo & H1 & H2)].
  - by rewrite H.
  - by rewrite H1, H2.
Qed.

(** C9, as the code has it: with a [convert_to] that parses to the
    Sensitive type the function runs inside [DoRedacted], so with the
    redaction flag set, and the flag is as before afterwards; with any
    other type, or none, the function runs on the invocation as it is.
    A value obtained under a [convert_to] type is handed to [vf.New]
    with that type, together with the constructor arguments when the
    directive lists some; an undefined value is returned as it is.  The
    flag is all the redaction there is in this file: what the
    [Report...] methods and [ReportText] hand to the explainer is the
    same with the flag set as with the flag clear. *)
Theorem LookupAndConvertData_redacts_and_converts (fn : M (option Value)) (w : World)
    (convertToType : option DType) (convertToArgs : option (list Value)) :
  extractConversion w = (Val (convertToType, convertToArgs), w) ->
  let produced := (if isSensitive convertToType then DoRedacted fn else fn) w in
  (isSensitive convertToType = true ->
   redacted (ic (withRedacted true w)) = true /\
   produced.1 = (fn (withRedacted true w)).1 /\
   (redacted (ic w) = false ->
    produced = ((fn (withRedacted true w)).1,
                withRedacted false (fn (withRedacted true w)).2)) /\
   (redacted (ic w) = true -> produced = fn w)) /\
  (isSensitive convertToType = false -> produced = fn w) /\
  (forall v w1 t,
     produced = (Val (Some v), w1) -> convertToType = Some t ->
     LookupAndConvertData fn w = constructed t (newArgument v convertToArgs) w1) /\
  (forall v w1,
     produced = (Val (Some v), w1) -> convertToType = None ->
     LookupAndConvertData fn w = (Val (Some v), w1)) /\
  (forall w1,
     produced = (Val None, w1) -> LookupAndConvertData fn w = (Val None, w1)) /\
  (forall e w1,
     produced = (Panicked e, w1) -> LookupAndConvertData fn w = (Panicked e, w1)) /\
  (forall lo s ty,
     luOpts (ic w) = Some lo -> Get lo "convert_to" = Some (VString s) ->
     ParseType s = Val ty ->
     convertToType = Some ty /\ convertToArgs = None) /\
  (forall lo s arg args ty,
     luOpts (ic w) = Some lo ->
     Get lo "convert_to" = Some (VArray (VString s :: arg :: args)) ->
     ParseType s = Val ty ->
     convertToType = Some ty /\ convertToArgs = Some (arg :: args)) /\
  (forall (r : Report) (b : bool) (w0 : World),
     reports r (withRedacted b w0) =
       (Val tt,
        mkWorld (setRedacted b (ic w0)) (ext w0)
          (trace w0 ++ reported (ic w0) (acceptOf r)))) /\
  (forall messageProducer (b : bool) (w0 : World) e msg ext',
     explainer (ic w0) = Some e -> messageProducer (ext w0) = (Val msg, ext') ->
     ReportText messageProducer (withRedacted b w0) =
       (Val tt, mkWorld (setRedacted b (ic w0)) ext' (trace w0 ++ [AcceptText msg]))).
Proof.
  intros Hconv. cbn zeta.
  assert (Hrun : LookupAndConvertData fn w =
    match (if isSensitive convertToType then DoRedacted fn else fn) w with
    | (Val (Some v), w1) =>
        match convertToType with
        | Some t => constructed t (newArgument v convertToArgs) w1
        | None => (Val (Some v), w1)
        end
    | (Val None, w1) => (Val None, w1)
    | (Panicked e, w1) => (Panicked e, w1)
    end).
  { unfold LookupAndConvertData. unfold bind at 1. rewrite Hconv.
    unfold bind at 1.
    destruct ((if isSensitive convertToType then DoRedacted fn else fn) w)
      as [[[v|]|e] w1]; [|done|done].
    destruct convertToType as [t|]; [|done].
    unfold constructed, newArgument. engine. by destruct (New t _). }
  split; [|split; [|split; [|split; [|split; [|split; [|split; [|split; [|split]]]]]]]].
  - intros Hs. rewrite Hs. repeat split.
    + destruct (redacted (ic w)) eqn:Hr.
      * rewrite DoRedacted_set by done.
        by rewrite <- (withRedacted_same w) at 1; rewrite Hr.
      * by rewrite DoRedacted_clear.
    + intros Hr. by rewrite DoRedacted_clear.
    + intros Hr. by rewrite DoRedacted_set.
  - intros Hs. by rewrite Hs.
  - intros v w1 t Hp ->. by rewrite Hrun, Hp.
  - intros v w1 Hp ->. by rewrite Hrun, Hp.
  - intros w1 Hp. by rewrite Hrun, Hp.
  - intros e w1 Hp. by rewrite Hrun, Hp.
  - intros lo s ty Hlo Hct Hty.
    rewrite (extractConversion_string w lo s ty Hlo Hct Hty) in Hconv.
    by injection Hconv as <- <-.
  - intros lo s arg args ty Hlo Hct Hty.
    rewrite (extractConversion_array w lo s (arg :: args) ty Hlo Hct Hty) in Hconv.
    by injection Hconv as <- <-.
  - intros r b w0. unfold reported.
    destruct r; cbn [reports acceptOf];
      unfold ReportFound, ReportMergeResult; engine; cbn;
      destruct (explainer (ic w0)); cbn; by rewrite ?app_nil_r.
  - intros producer b w0 e msg ext' He Hp. unfold ReportText. engine.
    cbn. rewrite He. cbn. by rewrite Hp.
Qed.

(** X1: [DoWithScope] runs the doer under the given scope.  When the
    doer returns, the scope of before the call is put back, whatever the
    doer left; when the doer panics, the scope is left as the doer left
    it, so a doer that does not touch the scope leaves the given scope
    behind, and code that recovers the panic goes on under it. *)
Theorem DoWithScope_restores_on_return_only {A : Type}
    (sc : list (string * Value)) (doer : M A) (w : World) :
  let inside := doer (withScope sc w) in
  scope (ic (withScope sc w)) = sc /\
  (forall r, inside.1 = Val r ->
     DoWithScope sc doer w = (Val r, withScope (scope (ic w)) inside.2) /\
     scope (ic (DoWithScope sc doer w).2) = scope (ic w)) /\
  (forall e, inside.1 = Panicked e ->
     DoWithScope sc doer w = (Panicked e, inside.2) /\
     (scope (ic inside.2) = sc -> scope (ic (DoWithScope sc doer w).2) = sc)) /\
  (forall e,
     runExplained (ERecover (EScope sc (EPanic e))) w = (Val None, withScope sc w)).
Proof.
  cbn zeta. split; [done|]. split; [|split].
  - intros r Hr. unfold DoWithScope, bind, getIc, setIc, ret.
    fold (withScope sc w). destruct (doer (withScope sc w)) as [r0 w2].
    cbn in Hr. subst r0. done.
  - intros e He. unfold DoWithScope, bind, getIc, setIc, ret.
    fold (withScope sc w). destruct (doer (withScope sc w)) as [r0 w2].
    cbn in He. subst r0. done.
  - intros e. reflexivity.
Qed.

Lemma openFrames_app (a b : list Call) :
  forall d, openFrames d (a ++ b) = openFrames d a ≫= fun d' => openFrames d' b.
Proof.
  induction a as [|c a IH]; intros d; [done|]. cbn.
  destruct (isPush c); [apply IH|]. destruct (isPop c); [|apply IH].
  destruct d; [done|apply IH].
Qed.

Lemma openFrames_count (calls : list Call) :
  forall d d', openFrames d calls = Some d' ->
    d + count isPush calls = d' + count isPop calls.
Proof.
  unfold count. induction calls as [|c calls IH]; intros d d' H; cbn in H.
  - injection H as <-. cbn. lia.
  - rewrite !filter_cons.
    destruct c; cbn in *; rewrite ?decide_True, ?decide_False by done; cbn;
      try (apply IH in H; lia).
    destruct d as [|d0]; [done|]. apply IH in H.
    rewrite ?decide_True by done. cbn. lia.
Qed.

Lemma within_withFrame {A} (f : Frame) (actor : M A) :
  within f actor = withFrame (pushOf f) actor.
Proof. by destruct f. Qed.

Lemma reports_report (r : Report) : reports r = report (acceptOf r).
Proof. by destruct r. Qed.

Lemma pushOf_isPush (f : Frame) : isPush (pushOf f) = true.
Proof. by destruct f. Qed.

Lemma acceptOf_neutral (r : Report) :
  isPush (acceptOf r) = false /\ isPop (acceptOf r) = false.
Proof. by destruct r. Qed.

(** What a run of explained code adds to the trace. *)
Lemma explained_trace (p : Explained) :
  forall (w : World) r w',
    runExplained p w = (r, w') ->
    exists added,
      trace w' = trace w ++ added /\
      explainer (ic w') = explainer (ic w) /\
      (forall d, openFrames d added = Some d) /\
      (explainer (ic w) = None -> added = [] /\ ext w' = ext w).
Proof.
  induction p as [v|e|rp|producer|f body IH|sc body IH|p1 IH1 p2 IH2|body IH];
    intros w r w' Hrun; cbn [runExplained] in Hrun.
  - injection Hrun as <- <-. exists []. by rewrite app_nil_r.
  - injection Hrun as <- <-. exists []. by rewrite app_nil_r.
  - rewrite reports_report in Hrun. unfold report, bind, getIc, tell, ret in Hrun.
    destruct (acceptOf_neutral rp) as [Hpush Hpop].
    destruct (explainer (ic w)) eqn:He; injection Hrun as <- <-; cbn.
    + exists [acceptOf rp]. repeat split; try done.
      intros d. cbn. by rewrite Hpush, Hpop.
    + exists []. by rewrite app_nil_r.
  - unfold ReportText, bind, getIc, ret in Hrun.
    destruct (explainer (ic w)) eqn:He.
    + destruct (producer (ext w)) as [[msg|err] ext']; injection Hrun as <- <-; cbn.
      * exists [AcceptText msg]. repeat split; done.
      * exists []. by rewrite app_nil_r.
    + injection Hrun as <- <-. exists []. by rewrite app_nil_r.
  - rewrite within_withFrame in Hrun. unfold withFrame, bind, getIc in Hrun.
    destruct (explainer (ic w)) eqn:He.
    + unfold defer, tell in Hrun.
      destruct (runExplained body _) as [r0 w0] eqn:Hb.
      destruct (IH _ _ _ Hb) as (added & Htr & Hex & Hd & _).
      cbn in Htr, Hex. injection Hrun as <- <-.
      exists ([pushOf f] ++ added ++ [Pop]). cbn [ic ext trace].
      split; [by rewrite Htr, <- !app_assoc|].
      split; [congruence|]. split; [|done].
      intros d. cbn. by rewrite pushOf_isPush, openFrames_app, Hd.
    + destruct (IH _ _ _ Hrun) as (added & Htr & Hex & Hd & Hnone).
      exists added. rewrite He in Hex. naive_solver.
  - unfold DoWithScope, bind, getIc, setIc, ret in Hrun.
    destruct (runExplained body _) as [r0 w0] eqn:Hb.
    destruct (IH _ _ _ Hb) as (added & Htr & Hex & Hd & Hnone).
    cbn in Htr, Hex, Hnone.
    exists added. destruct r0; injection Hrun as <- <-; cbn; done.
  - unfold bind in Hrun.
    destruct (runExplained p1 w) as [r1 w1] eqn:H1.
    destruct (IH1 _ _ _ H1) as (a1 & Htr1 & Hex1 & Hd1 & Hn1).
    destruct r1 as [v|e].
    + destruct (IH2 _ _ _ Hrun) as (a2 & Htr2 & Hex2 & Hd2 & Hn2).
      exists (a1 ++ a2).
      split; [by rewrite Htr2, Htr1, app_assoc|].
      split; [congruence|]. split.
      * intros d. rewrite openFrames_app, Hd1. apply Hd2.
      * intros He. destruct (Hn1 He) as [-> <-].
        rewrite Hex1 in Hn2. by destruct (Hn2 He) as [-> ->].
    + injection Hrun as <- <-. exists a1. done.
  - unfold recover in Hrun.
    destruct (runExplained body w) as [r0 w0] eqn:Hb.
    destruct (IH _ _ _ Hb) as (added & Htr & Hex & Hd & Hnone).
    exists added. destruct r0; injection Hrun as <- <-; done.
Qed.

(** X2: whatever explained code does, also when it panics inside a frame
    or recovers from a panic, the calls the explainer receives nest
    properly: no frame is popped that was not pushed, no frame stays
    open, and there are as many pops as pushes. *)
Theorem frames_are_balanced (p : Explained) (w : World) :
  exists added,
    trace (runExplained p w).2 = trace w ++ added /\
    (forall d, openFrames d added = Some d) /\
    count isPush added = count isPop added.
Proof.
  destruct (runExplained p w) as [r w'] eqn:Hrun.
  destruct (explained_trace p w r w' Hrun) as (added & Htr & _ & Hd & _).
  exists added. repeat split; [done..|].
  pose proof (openFrames_count added 0 0 (Hd 0)). lia.
Qed.

(** X3: on an invocation without an explainer, explained code tells
    nobody anything and no message producer is evaluated: the trace and
    the outside world are as before. *)
Theorem silent_without_explainer (p : Explained) (w : World) :
  explainer (ic w) = None ->
  trace (runExplained p w).2 = trace w /\
  ext (runExplained p w).2 = ext w.
Proof.
  intros He. destruct (runExplained p w) as [r w'] eqn:Hrun.
  destruct (explained_trace p w r w' Hrun) as (added & Htr & _ & _ & Hn).
  destruct (Hn He) as [-> Hext]. cbn. by rewrite Htr, app_nil_r.
Qed.

(** X4: narrowing an invocation for the configuration, for data or for
    the lookup options is idempotent, touches nothing but the mode and
    the explainer, and never installs an explainer: the narrowed copy
    either has the explainer of the original or none. *)
Theorem narrowing_is_idempotent (c : ivContext) :
  (ForConfig (ForConfig c) = ForConfig c /\
   ForData (ForData c) = ForData c /\
   ForLookupOptions (ForLookupOptions c) = ForLookupOptions c) /\
  (sameLookupState (ForConfig c) c /\ mode (ForConfig c) = mode c /\
   sameLookupState (ForData c) c /\
   sameLookupState (ForLookupOptions c) c) /\
  (explainer (ForConfig c) = None /\
   (explainer (ForData c) = explainer c \/ explainer (ForData c) = None) /\
   (explainer (ForLookupOptions c) = explainer c \/
    explainer (ForLookupOptions c) = None)).
Proof.
  unfold sameLookupState, ForConfig, ForData, ForLookupOptions, DataMode,
    LookupOptionsMode.
  destruct c as [ns sc lo st ex [] red]; destruct ex as [[[] []]|]; cbn;
    naive_solver.
Qed.

(** X5: which lookups are explained.  An explainer for the options only
    ([OnlyOptions]) explains the lookup of the lookup options and is
    dropped for data; an explainer with neither flag explains data and
    is dropped for the lookup options; the configuration is never
    explained.  Once dropped the explainer does not come back: the
    lookup options looked up from a data lookup of an options-only
    explainer go unexplained, although the same lookup made from the top
    level is explained. *)
Theorem narrowing_explainer (c : ivContext) (e : Explainer) :
  explainer c = Some e -> mode c = topLevelMode ->
  ExplainMode (ForConfig c) = false /\
  ExplainMode (ForData c) = negb (OnlyOptions e) /\
  ExplainMode (ForLookupOptions c) = Options e || OnlyOptions e /\
  (OnlyOptions e = true ->
     explainer (ForLookupOptions c) = Some e /\
     explainer (ForLookupOptions (ForData c)) = None) /\
  (OnlyOptions e = false -> Options e = false ->
     explainer (ForData c) = Some e /\
     explainer (ForData (ForLookupOptions c)) = None).
Proof.
  unfold ExplainMode, ForConfig, ForData, ForLookupOptions, DataMode,
    LookupOptionsMode.
  destruct c as [ns sc lo st ex md red]; cbn. intros -> ->.
  destruct e as [[] []]; cbn; naive_solver.
Qed.

(** X6: a [convert_to] entry that is an empty array is ignored, the
    function runs as without the entry; a [convert_to] whose type is not
    a string (the entry itself, or the first element of an array) makes
    [LookupAndConvertData] panic on the type assertion before the
    function is run, with the invocation and the trace untouched. *)
Theorem LookupAndConvertData_malformed_convert_to
    (fn : M (option Value)) (w : World) (lo : list (string * Value)) :
  luOpts (ic w) = Some lo ->
  (Get lo "convert_to" = Some (VArray []) ->
     LookupAndConvertData fn w = fn w) /\
  (forall t rest,
     Get lo "convert_to" = Some (VArray (t :: rest)) -> isString t = false ->
     LookupAndConvertData fn w =
       (Panicked (TypeAssertion "dgo.Value is not dgo.String"), w)) /\
  (forall ct,
     Get lo "convert_to" = Some ct -> isString ct = false -> isArray ct = false ->
     LookupAndConvertData fn w =
       (Panicked (TypeAssertion "dgo.Value is not dgo.String"), w)).
Proof.
  intros Hlo. unfold LookupAndConvertData, extractConversion.
  split; [|split].
  - intros Hct. unfold bind at 1. unfold bind at 1. unfold getIc at 1.
    rewrite Hlo, Hct. cbn. unfold bind.
    destruct (fn w) as [[[v|]|e] w']; done.
  - intros t rest Hct Ht. unfold bind at 1. unfold bind at 1. unfold getIc at 1.
    rewrite Hlo, Hct. destruct t; try done; by destruct rest.
  - intros ct Hct Hs Ha. unfold bind at 1. unfold bind at 1. unfold getIc at 1.
    rewrite Hlo, Hct. by destruct ct.
Qed.

(** X7: what [SetMergeStrategy] does with a merge option that is
    neither a name nor a map naming a strategy.  A map option without a string
    [strategy] entry asks [merge.GetStrategy] for the empty name without
    options; an option that is neither a string nor a map asks for
    [first].  When [merge.GetStrategy] panics the invocation is left
    half updated: the lookup options are the new ones, the strategy is
    the old one. *)
Theorem SetMergeStrategy_other_options (cli : option Value)
    (lookupOptions : option (list (string * Value))) (w : World) :
  (forall m,
     selectedOption cli lookupOptions = Some (VMap m) ->
     (forall s, Get m "strategy" <> Some (VString s)) ->
     exists told,
       SetMergeStrategy cli lookupOptions w = installs lookupOptions told "" None w) /\
  (forall o,
     selectedOption cli lookupOptions = Some o ->
     isString o = false -> isMap o = false ->
     exists told,
       SetMergeStrategy cli lookupOptions w =
         installs lookupOptions told "first" None w) /\
  (forall e,
     (SetMergeStrategy cli lookupOptions w).1 = Panicked e ->
     let after := ic (SetMergeStrategy cli lookupOptions w).2 in
     luOpts after = lookupOptions /\ strategy after = strategy (ic w) /\
     nameStack after = nameStack (ic w) /\ redacted after = redacted (ic w)).
Proof.
  pose proof (SetMergeStrategy_run cli lookupOptions w) as Hrun.
  cbn zeta in Hrun. unfold selectedOption.
  split; [|split].
  - intros m Hsel Hstr. eexists. rewrite Hrun, Hsel. cbn.
    destruct (Get m "strategy") as [[]|] eqn:Hg; try done.
    by destruct (Hstr s).
  - intros o Hsel Hs Hm. eexists. rewrite Hrun, Hsel.
    by destruct o.
  - intros e. rewrite Hrun. unfold installs.
    destruct (GetStrategy _ _); [done|]. by intros _.
Qed.

End Engine.

End Session.

(** ** A concrete session *)

Module SessionDemo.
Import Dgo Session.

(** The outside world counts the calls on providers; a strategy is the
    name and options it was asked for with; a type is its name. *)
Definition Strat : Type := string * option (list (string * Value)).
Definition DemoWorld : Type := @World nat string string Strat.

Definition topProvider (sc : @serverCtx Strat) (root : string) (calls : nat)
  : Outcome (option Value) * nat :=
  (Val (if String.eqb root "greeting" then Some (VString "hello") else None), S calls).

Definition interpolate (dc : @ivContext Strat) (v : Value) (allowMethods : bool)
    (calls : nat) : Outcome (option Value) * nat :=
  (Val (Some v), calls).

Definition dig (key : Key) (dc : @ivContext Strat) (v : option Value) (calls : nat)
  : Outcome (option Value) * nat :=
  (Val v, calls).

Definition lookupKey (dh : @DataProvider string) (key : Key) (c : @ivContext Strat)
    (loc : option string) (calls : nat) : Outcome (option Value) * nat :=
  (Val (Some (VString "data")), S calls).

Definition exists_ (loc : string) (calls : nat) : bool := String.eqb loc "common.yaml".

Definition mergeLookup (s : Strat) (locs : list string)
    (produce : string -> DemoWorld -> Outcome (option Value) * DemoWorld)
  : DemoWorld -> Outcome (option Value) * DemoWorld :=
  firstFound locs produce.

Definition getStrategy (name : string) (opts : option (list (string * Value)))
  : Outcome Strat :=
  Val (name, opts).

Definition parseType (s : string) : Outcome string := Val s.

Definition sensitiveEquals (t : string) : bool := String.eqb t "Sensitive".

Definition new (t : string) (v : Value) : Outcome Value :=
  Val (VMap [("type", VString t); ("value", v)]).

Definition explained : DemoWorld :=
  mkWorld (newInvocation [] (Some (mkExplainer false false))) 0 [].

Definition quiet : DemoWorld := mkWorld (newInvocation [] None) 0 [].

Definition optionsKey : Key := mkKey "lookup_options.a" "lookup_options" [inl "a"].
Definition greetingKey : Key := mkKey "greeting" "greeting" [].
Definition absentKey : Key := mkKey "absent" "absent" [].
Definition keyA : Key := mkKey "a" "a" [].
Definition keyB : Key := mkKey "b" "b" [].

Definition noLocations : @DataProvider string := mkDataProvider "env" [].
Definition missingOnly : @DataProvider string := mkDataProvider "yaml" ["missing.yaml"].

Definition first : Strat := ("first", None).

Definition sensitiveOptions : list (string * Value) := [("convert_to", VString "Sensitive")].

Definition sensitiveWorld : DemoWorld :=
  mkWorld (mkIvContext [] [] (Some sensitiveOptions) None None topLevelMode false) 0 [].

(** A value-producing function that reads the redaction flag. *)
Definition secret : DemoWorld -> Outcome (option Value) * DemoWorld :=
  runClosure (CSeq CObserve (CReturn (Some (VString "s3cret")))).

Definition deepOption : Value :=
  VMap [("strategy", VString "deep"); ("knockout_prefix", VString "--")].

Lemma WithKey_detects_recursion_witness :
  NoDup (nameStack (ic quiet)) /\
  ((exists names,
      (runClosure (nested [keyA; keyB] (CWithKey keyA (CReturn None))) quiet).1 =
        Panicked (RecursiveLookup names)) /\
   ic (runClosure (nested [keyA; keyB] (CWithKey keyA (CReturn None))) quiet).2 = ic quiet).
Proof.
  split; [apply NoDup_nil_2|].
  destruct (WithKey_detects_recursion keyA quiet) as (_ & _ & _ & _ & H & _).
  exact (H (NoDup_nil_2) [] [keyB] keyA (CReturn None) eq_refl).
Defined.

Lemma Lookup_lookup_options_witness :
  Root optionsKey = "lookup_options" /\
  Lookup topProvider interpolate dig optionsKey None explained =
    (Val None,
     mkWorld (ic explained) 0
       [PushInvalidKey optionsKey; AcceptNotFound optionsKey; Pop]).
Proof.
  split; [reflexivity|].
  exact (proj1 (Lookup_lookup_options topProvider interpolate dig optionsKey None
                  explained eq_refl)).
Defined.

Lemma Lookup_top_provider_witness :
  Root greetingKey <> "lookup_options" /\
  Lookup topProvider interpolate dig greetingKey None explained =
    (Val (Some (VString "hello")),
     mkWorld (ic explained) 1
       [CallTopProvider (ServerContext (ic explained) None) "greeting";
        CallInterpolate (ForData (ic explained)) (VString "hello") true;
        CallDig greetingKey (ForData (ic explained)) (Some (VString "hello"))]).
Proof.
  assert (Hroot : Root greetingKey <> "lookup_options") by discriminate.
  split; [exact Hroot|].
  destruct (Lookup_top_provider topProvider interpolate dig greetingKey None
              explained Hroot) as (_ & H & _).
  exact (H (VString "hello") 1 (Some (VString "hello")) 1 eq_refl eq_refl).
Defined.

(** C4, as stated, fails: with an explainer attached and a top-level
    provider that returns undefined, [Lookup] returns undefined and the
    explainer is not told that the key was not found. *)
Lemma Lookup_undefined_is_not_reported :
  let r := Lookup topProvider interpolate dig absentKey None explained in
  ExplainMode (ic explained) = true /\
  r.1 = Val None /\
  ~ AcceptNotFound absentKey ∈ trace r.2.
Proof.
  cbn zeta. repeat split. intros H.
  assert (Ht : trace (Lookup topProvider interpolate dig absentKey None explained).2 =
               [CallTopProvider (ServerContext (ic explained) None) "absent"])
    by reflexivity.
  rewrite Ht in H. apply list_elem_of_singleton in H. discriminate H.
Qed.

Lemma MergeLocations_by_count_witness :
  Locations noLocations = [] /\
  MergeLocations lookupKey exists_ mergeLookup greetingKey noLocations first explained =
    (Val (Some (VString "data")),
     mkWorld (ic explained) 1
       [PushDataProvider noLocations; CallLookupKey noLocations greetingKey None; Pop]).
Proof.
  split; [reflexivity|].
  destruct (MergeLocations_by_count lookupKey exists_ mergeLookup greetingKey
              noLocations first explained) as (H & _).
  exact (proj1 (H eq_refl)).
Defined.

(** C5, as stated, fails: a provider whose one location does not exist
    is not asked at all. *)
Lemma MergeLocations_missing_location_not_asked :
  let r := MergeLocations lookupKey exists_ mergeLookup greetingKey missingOnly first quiet in
  length (Locations missingOnly) = 1 /\
  count isLookupKey (trace r.2) = 0 /\
  count isLookupKey (trace r.2) <> 1.
Proof. cbn zeta. repeat split. discriminate. Qed.

Lemma invokeWithLocation_not_found_witness :
  exists_ "missing.yaml" (ext explained) = false /\
  invokeWithLocation lookupKey exists_ missingOnly (Some "missing.yaml") greetingKey
      explained =
    (Val None,
     mkWorld (ic explained) 0
       [PushLocation "missing.yaml"; AcceptLocationNotFound; Pop]).
Proof.
  split; [reflexivity|].
  exact (proj1 (invokeWithLocation_not_found lookupKey exists_ missingOnly
                  "missing.yaml" greetingKey explained eq_refl)).
Defined.

Lemma SetMergeStrategy_precedence_witness :
  Get [("strategy", VString "deep"); ("knockout_prefix", VString "--")] "strategy" =
    Some (VString "deep") /\
  SetMergeStrategy getStrategy (Some deepOption) (Some [("merge", VString "hash")]) quiet =
    (Val tt,
     mkWorld
       (mkIvContext [] [] (Some [("merge", VString "hash")])
          (Some ("deep", Some [("knockout_prefix", VString "--")])) None
          topLevelMode false)
       0
       [CallGetStrategy "deep" (Some [("knockout_prefix", VString "--")])]).
Proof.
  split; [reflexivity|].
  destruct (SetMergeStrategy_precedence getStrategy (Some deepOption)
              (Some [("merge", VString "hash")]) quiet) as (_ & H & _).
  exact (H _ "deep" eq_refl eq_refl).
Defined.

(** C8, as stated, fails: a map option without a [strategy] entry is a
    selected option that is a map, yet [merge.GetStrategy] is asked for
    the empty name without options: the name is not [first], and the
    entries of the map do not become the merge options. *)
Lemma SetMergeStrategy_map_without_strategy :
  let selected := VMap [("knockout_prefix", VString "--")] in
  let r := SetMergeStrategy getStrategy (Some selected) None quiet in
  trace r.2 = [CallGetStrategy "" None] /\
  strategy (ic r.2) = Some ("", None) /\
  strategy (ic r.2) <> Some ("first", None) /\
  strategy (ic r.2) <> Some ("first", Some [("knockout_prefix", VString "--")]) /\
  strategy (ic r.2) <> Some ("", Some [("knockout_prefix", VString "--")]).
Proof. cbn zeta. repeat split; discriminate. Qed.

Lemma LookupAndConvertData_redacts_and_converts_witness :
  extractConversion parseType sensitiveWorld =
    (Val (Some "Sensitive", None), sensitiveWorld) /\
  LookupAndConvertData parseType sensitiveEquals new secret sensitiveWorld =
    (Val (Some (VMap [("type", VString "Sensitive"); ("value", VString "s3cret")])),
     mkWorld (ic sensitiveWorld) 0
       [Observed [] true; CallNew "Sensitive" (VString "s3cret")]).
Proof.
  split; [reflexivity|].
  destruct (LookupAndConvertData_redacts_and_converts parseType sensitiveEquals new
              secret sensitiveWorld (Some "Sensitive") None eq_refl)
    as (_ & _ & H & _).
  exact (H (VString "s3cret")
           (mkWorld (ic sensitiveWorld) 0 [Observed [] true]) "Sensitive" eq_refl eq_refl).
Defined.

(** An invocation with an explainer and a Sensitive [convert_to]. *)
Definition sensitiveExplained : DemoWorld :=
  mkWorld
    (mkIvContext [] [] (Some sensitiveOptions) None (Some (mkExplainer false false))
       topLevelMode false)
    0 [].

(** A value-producing function that reads the redaction flag, reports
    the value it found and a text about it, and returns the value. *)
Definition leaky : DemoWorld -> Outcome (option Value) * DemoWorld :=
  bind (runClosure CObserve) (fun _ =>
  bind (ReportFound greetingKey (Some (VString "s3cret"))) (fun _ =>
  bind (ReportText (fun calls => (Val "found s3cret", calls))) (fun _ =>
  ret (Some (VString "s3cret"))))).

(** C9, as stated, fails: under a Sensitive [convert_to] the function
    runs with the redaction flag set, and the explainer still receives
    the raw value, in the found report and in the text. *)
Lemma LookupAndConvertData_explains_the_raw_value :
  let r := LookupAndConvertData parseType sensitiveEquals new leaky sensitiveExplained in
  isSensitive sensitiveEquals (Some "Sensitive") = true /\
  trace r.2 =
    [Observed [] true;
     AcceptFound greetingKey (Some (VString "s3cret"));
     AcceptText "found s3cret";
     CallNew "Sensitive" (VString "s3cret")] /\
  AcceptFound greetingKey (Some (VString "s3cret")) ∈ trace r.2 /\
  AcceptText "found s3cret" ∈ trace r.2.
Proof.
  cbn zeta.
  assert (Ht : trace (LookupAndConvertData parseType sensitiveEquals new leaky
                        sensitiveExplained).2 =
               [Observed [] true;
                AcceptFound greetingKey (Some (VString "s3cret"));
                AcceptText "found s3cret";
                CallNew "Sensitive" (VString "s3cret")])
    by reflexivity.
  rewrite Ht. split; [reflexivity|]. split; [reflexivity|].
  split; [apply list_elem_of_further, list_elem_of_here|].
  apply list_elem_of_further, list_elem_of_further, list_elem_of_here.
Qed.

Lemma DoRedacted_scopes_redaction_witness :
  redacted (ic quiet) = false /\
  DoRedacted (runClosure (CSeq CObserve (CPanic NotFound))) quiet =
    (Panicked NotFound, mkWorld (ic quiet) 0 [Observed [] true]).
Proof.
  split; [reflexivity|].
  exact (proj1 (DoRedacted_scopes_redaction (CSeq CObserve (CPanic NotFound)) quiet)).
Defined.

(** An explained program: a lookup frame in which a key is reported as
    not found and a text is produced from the outside world. *)
Definition chatty : @Explained nat string Strat :=
  EFrame (FLookup keyA)
    (ESeq (EReport (RNotFound keyA))
       (EText (fun calls => (Val "looked up", S calls)))).

Definition optionsOnly : Explainer := mkExplainer true false.

Definition optionsOnlyContext : @ivContext Strat :=
  newInvocation [] (Some optionsOnly).

Definition bogusWorld : DemoWorld :=
  mkWorld
    (mkIvContext [] [] (Some [("convert_to", VArray [])]) None None topLevelMode false)
    0 [].

Lemma DoWithScope_restores_on_return_only_witness :
  runExplained (ERecover (EScope [("x", VInt 1)] (EPanic (OtherError "boom")))) quiet =
    (Val None, withScope [("x", VInt 1)] quiet).
Proof.
  destruct (DoWithScope_restores_on_return_only (A := option Value)
              [("x", VInt 1)] (panic (OtherError "boom")) quiet) as (_ & _ & _ & H).
  exact (H (OtherError "boom")).
Defined.

Lemma silent_without_explainer_witness :
  explainer (ic quiet) = None /\
  trace (runExplained chatty quiet).2 = trace quiet /\
  ext (runExplained chatty quiet).2 = ext quiet.
Proof.
  split; [reflexivity|].
  exact (silent_without_explainer chatty quiet eq_refl).
Defined.

Lemma narrowing_explainer_witness :
  explainer optionsOnlyContext = Some optionsOnly /\
  mode optionsOnlyContext = topLevelMode /\
  explainer (ForLookupOptions optionsOnlyContext) = Some optionsOnly /\
  explainer (ForLookupOptions (ForData optionsOnlyContext)) = None.
Proof.
  split; [reflexivity|]. split; [reflexivity|].
  destruct (narrowing_explainer optionsOnlyContext optionsOnly eq_refl eq_refl)
    as (_ & _ & _ & H & _).
  exact (H eq_refl).
Defined.

Lemma LookupAndConvertData_malformed_convert_to_witness :
  luOpts (ic bogusWorld) = Some [("convert_to", VArray [])] /\
  LookupAndConvertData parseType sensitiveEquals new secret bogusWorld =
    secret bogusWorld.
Proof.
  split; [reflexivity|].
  destruct (LookupAndConvertData_malformed_convert_to parseType sensitiveEquals new
              secret bogusWorld [("convert_to", VArray [])] eq_refl) as (H & _).
  exact (H eq_refl).
Defined.

Lemma SetMergeStrategy_other_options_witness :
  selectedOption (Some (VInt 3)) None = Some (VInt 3) /\
  exists told,
    SetMergeStrategy getStrategy (Some (VInt 3)) None quiet =
      installs getStrategy None told "first" None quiet.
Proof.
  split; [reflexivity|].
  destruct (SetMergeStrategy_other_options getStrategy (Some (VInt 3)) None quiet)
    as (_ & H & _).
  exact (H (VInt 3) eq_refl eq_refl eq_refl).
Defined.

End SessionDemo.

(** ** Sessions ([session.go], lines 23-232 and 333-353)

    [New] builds the session options, [Invocation] reads the
    configuration path from them.  The names of the options are
    constants of [hieraapi]; the working directory and the environment
    are the [Os] the session is made in.  The session options are a
    mutable dgo map keyed by strings, a [gmap] here; the session's
    [vars] hold values of four dynamic types. *)

Module SessionNew.
Import Dgo Session.

Definition hieraCacheKey : string := "Hiera::Cache".
Definition hieraTopProviderKey : string := "Hiera::TopProvider".
Definition hieraSessionOptionsKey : string := "Hiera::SessionOptions".
Definition hieraTopProviderCacheKey : string := "Hiera::TopProvider::Cache".
Definition hieraPluginRegistry : string := "Hiera::Plugins".

(** [os.Getwd] and [os.LookupEnv]. *)
Record Os : Type := mkOs {
  Getwd : Outcome string;
  LookupEnv : string -> option string
}.

(** [streamer.Dialect]: the one dialect there is. *)
Inductive streamerDialect : Type :=
| DgoDialect.

(** [dgo.Keyed]: a map, or the [nestedScope] of two scopes. *)
Inductive Keyed : Type :=
| MapScope (m : list (string * Value))
| nestedScope (parentScope scope : Keyed).

(** [nestedScope.Get]; on a map, [dgo.Map.Get]. *)
Fixpoint KeyedGet (ns : Keyed) (key : string) : option Value :=
  match ns with
  | MapScope m => Dgo.Get m key
  | nestedScope parentScope scope =>
      match KeyedGet scope key with
      | Some v => Some v
      | None => KeyedGet parentScope key
      end
  end.

(** The entries of a scope, innermost first. *)
Fixpoint flatten (ns : Keyed) : list (string * Value) :=
  match ns with
  | MapScope m => m
  | nestedScope parentScope scope => flatten scope ++ flatten parentScope
  end.

Section Sessions.

(** [hiera.LookupKey] functions, and [provider.ConfigLookupKey]. *)
Context {LookupKey : Type}.
Variable ConfigLookupKey : LookupKey.

Variables HieraConfig HieraRoot HieraConfigFileName HieraDialect HieraScope : string.

(** [String()] of a dgo value that is not a string, and [filepath.Join]. *)
Variable render : Value -> string.
Variable filepathJoin : string -> string -> string.

Definition ValueString (v : Value) : string :=
  match v with
  | VString s => s
  | _ => render v
  end.

Inductive Var : Type :=
| SyncMapVar (m : gmap string Value)
| LookupKeyVar (f : LookupKey)
| OptionsVar (m : gmap string Value)
| PluginRegistryVar.

Record session : Type := mkSession {
  dialect : streamerDialect;
  vars : gmap string Var;
  scope : Keyed
}.

Record invocation : Type := mkInvocation {
  nameStack : list string;
  ivScope : Keyed;
  configPath : string;
  explainer : option Explainer
}.

(** The options with [HieraConfig] set: as given, or joined from the
    root and the file name. *)
Definition withHieraConfig (os : Os) (options : gmap string Value)
  : Outcome (gmap string Value) :=
  match options !! HieraConfig with
  | Some _ => Val options
  | None =>
      let hieraRoot :=
        match options !! HieraRoot with
        | Some r => Val (ValueString r)
        | None => Getwd os
        end in
      match hieraRoot with
      | Panicked e => Panicked e
      | Val hieraRoot =>
          let fileName :=
            match options !! HieraConfigFileName with
            | Some r => ValueString r
            | None =>
                match LookupEnv os "HIERA_CONFIGFILE" with
                | Some config => config
                | None => "hiera.yaml"
                end
            end in
          Val (<[HieraConfig := VString (filepathJoin hieraRoot fileName)]> options)
      end
  end.

Definition selectDialect (options : gmap string Value) : Outcome streamerDialect :=
  match options !! HieraDialect with
  | Some (VString ds) =>
      if String.eqb ds "dgo" then Val DgoDialect
      else if String.eqb ds "pcore" then
        Panicked (OtherError "pcore dialect is not yet implemented")
      else Panicked (OtherError ("unknown dialect '" +:+ ds +:+ "'"))
  | _ => Val DgoDialect
  end.

Definition selectScope (options : gmap string Value) : Keyed :=
  match options !! HieraScope with
  | Some (VMap sv) => MapScope sv
  | _ => MapScope []
  end.

(** [oif] is the options already as a map; the loader is left out. *)
Definition New (os : Os) (topProvider : option LookupKey)
    (oif : option (gmap string Value)) : Outcome session :=
  let topProvider :=
    match topProvider with
    | Some p => p
    | None => ConfigLookupKey
    end in
  let options : gmap string Value :=
    match oif with
    | Some m => m ∪ ∅
    | None => ∅
    end in
  match withHieraConfig os options with
  | Panicked e => Panicked e
  | Val options =>
      match selectDialect options with
      | Panicked e => Panicked e
      | Val dialect =>
          let scope := selectScope options in
          let vars : gmap string Var :=
            <[hieraCacheKey := SyncMapVar ∅]>
            (<[hieraTopProviderKey := LookupKeyVar topProvider]>
            (<[hieraTopProviderCacheKey := SyncMapVar ∅]>
            (<[hieraSessionOptionsKey := OptionsVar options]>
            (<[hieraPluginRegistry := PluginRegistryVar]> ∅)))) in
          Val (mkSession dialect vars scope)
      end
  end.

Definition Dialect (s : session) : streamerDialect := dialect s.

Definition Scope (s : session) : Keyed := scope s.

Definition Get (s : session) (key : string) : option Var := vars s !! key.

Definition notInitialized : Error := OtherError "session is not initialized".

Definition TopProvider (s : session) : Outcome LookupKey :=
  match Get s hieraTopProviderKey with
  | Some (LookupKeyVar v) => Val v
  | _ => Panicked notInitialized
  end.

Definition TopProviderCache (s : session) : Outcome (gmap string Value) :=
  match Get s hieraTopProviderCacheKey with
  | Some (SyncMapVar v) => Val v
  | _ => Panicked notInitialized
  end.

Definition SessionOptions (s : session) : Outcome (gmap string Value) :=
  match Get s hieraSessionOptionsKey with
  | Some (OptionsVar g) => Val g
  | _ => Panicked notInitialized
  end.

Definition SharedCache (s : session) : Outcome (gmap string Value) :=
  match Get s hieraCacheKey with
  | Some (SyncMapVar v) => Val v
  | _ => Panicked notInitialized
  end.

Definition nilDereference : Error :=
  OtherError "invalid memory address or nil pointer dereference".

(** [si] is the invocation scope already as a map. *)
Definition Invocation (s : session) (si : option (list (string * Value)))
    (explainer : option Explainer) : Outcome invocation :=
  let scope :=
    match si with
    | None => Scope s
    | Some m => nestedScope (Scope s) (MapScope m)
    end in
  match SessionOptions s with
  | Panicked e => Panicked e
  | Val options =>
      match options !! HieraConfig with
      | None => Panicked nilDereference
      | Some cfg => Val (mkInvocation [] scope (ValueString cfg) explainer)
      end
  end.

(** The options [New] starts from. *)
Definition given (oif : option (gmap string Value)) : gmap string Value :=
  default ∅ oif.

(** The file name [New] looks for when the options name no
    configuration. *)
Definition fileNameOf (os : Os) (options : gmap string Value) : string :=
  match options !! HieraConfigFileName, LookupEnv os "HIERA_CONFIGFILE" with
  | Some r, _ => ValueString r
  | None, Some config => config
  | None, None => "hiera.yaml"
  end.

(** *** Properties *)

Lemma Get_app (a b : list (string * Value)) (key : string) :
  Dgo.Get (a ++ b) key =
    match Dgo.Get a key with Some v => Some v | None => Dgo.Get b key end.
Proof.
  induction a as [|[k v] a IH]; [done|]. cbn. by destruct (String.eqb k key).
Qed.

(** X8: a nested scope answers as the map with the entries of the inner
    scope in front of those of the parent scope: an entry of the inner
    scope, also one whose value is Nil, hides the parent's. *)
Theorem nestedScope_flatten (ns : Keyed) (key : string) :
  KeyedGet ns key = Dgo.Get (flatten ns) key /\
  (forall parentScope m v,
     ns = nestedScope parentScope (MapScope m) -> Dgo.Get m key = Some v ->
     KeyedGet ns key = Some v) /\
  (forall parentScope m,
     ns = nestedScope parentScope (MapScope m) -> Dgo.Get m key = None ->
     KeyedGet ns key = KeyedGet parentScope key).
Proof.
  split; [|split].
  - induction ns as [m|p IHp s IHs]; [done|]. cbn.
    by rewrite Get_app, IHs, IHp.
  - intros p m v -> Hg. cbn. by rewrite Hg.
  - intros p m -> Hg. cbn. by rewrite Hg.
Qed.

Lemma given_union (oif : option (gmap string Value)) :
  match oif with Some m => m ∪ ∅ | None => ∅ end = given oif.
Proof. destruct oif; cbn; [apply (right_id ∅ (∪))|done]. Qed.

Lemma New_options (os : Os) (tp : option LookupKey)
    (oif : option (gmap string Value)) (s : session) :
  New os tp oif = Val s ->
  exists options,
    withHieraConfig os (given oif) = Val options /\
    selectDialect options = Val (dialect s) /\
    vars s !! hieraSessionOptionsKey = Some (OptionsVar options) /\
    vars s !! hieraTopProviderKey =
      Some (LookupKeyVar (default ConfigLookupKey tp)) /\
    vars s !! hieraCacheKey = Some (SyncMapVar ∅) /\
    vars s !! hieraTopProviderCacheKey = Some (SyncMapVar ∅) /\
    scope s = selectScope options.
Proof.
  unfold New. rewrite given_union.
  destruct (withHieraConfig os (given oif)) as [options|e] eqn:Hcfg; [|done].
  destruct (selectDialect options) as [d|e] eqn:Hd; [|done].
  intros [= <-]. exists options. cbn.
  split; [done|]. split; [done|]. split; [done|].
  split; [by destruct tp|]. done.
Qed.

(** X9: the configuration a session is made for.  A [HieraConfig]
    option is taken as it is, and then neither the working directory nor
    the environment matters.  Without one the configuration is the file
    name joined to the root: the root is the [HieraRoot] option, else
    the working directory; the file name is the [HieraConfigFileName]
    option, else the environment variable HIERA_CONFIGFILE, else
    hiera.yaml.  All other options are as given, and an invocation of
    the session never fails to read its configuration path. *)
Theorem New_config_path (os : Os) (tp : option LookupKey)
    (oif : option (gmap string Value)) (s : session) :
  New os tp oif = Val s ->
  exists options cfg,
    SessionOptions s = Val options /\
    options !! HieraConfig = Some cfg /\
    (forall k, k <> HieraConfig -> options !! k = given oif !! k) /\
    (forall v, given oif !! HieraConfig = Some v -> cfg = v) /\
    (given oif !! HieraConfig = None ->
       exists hieraRoot,
         cfg = VString (filepathJoin hieraRoot (fileNameOf os (given oif))) /\
         match given oif !! HieraRoot with
         | Some r => hieraRoot = ValueString r
         | None => Getwd os = Val hieraRoot
         end) /\
    (forall si explainer,
       exists iv,
         Invocation s si explainer = Val iv /\
         configPath iv = ValueString cfg).
Proof.
  intros Hnew.
  destruct (New_options os tp oif s Hnew) as (options & Hcfg & _ & Hopt & _).
  unfold withHieraConfig in Hcfg.
  assert (Hso : SessionOptions s = Val options).
  { unfold SessionOptions, Get. by rewrite Hopt. }
  destruct (given oif !! HieraConfig) as [v|] eqn:Hgiven.
  - injection Hcfg as <-. exists (given oif), v.
    split; [done|]. split; [done|]. split; [done|].
    split; [by intros ? [= ->]|]. split; [done|].
    intros si ex. eexists. unfold Invocation. rewrite Hso, Hgiven. done.
  - assert (exists hieraRoot,
              match given oif !! HieraRoot with
              | Some r => hieraRoot = ValueString r
              | None => Getwd os = Val hieraRoot
              end /\
              options = <[HieraConfig :=
                           VString (filepathJoin hieraRoot (fileNameOf os (given oif)))]>
                          (given oif)) as (root & Hroot & ->).
    { unfold fileNameOf.
      destruct (given oif !! HieraRoot) as [r|].
      - injection Hcfg as <-. by exists (ValueString r).
      - destruct (Getwd os) as [wd|e]; [|done]. injection Hcfg as <-.
        by exists wd. }
    eexists _, _. split; [done|].
    split; [apply lookup_insert_eq|].
    split; [by intros k Hk; rewrite lookup_insert_ne|].
    split; [done|]. split; [by intros _; exists root|].
    intros si ex. eexists. unfold Invocation.
    rewrite Hso, lookup_insert_eq. done.
Qed.

(** X10: when [New] panics.  It panics exactly when it needs the working
    directory (neither a configuration nor a root is given) and
    [os.Getwd] fails, or when the dialect option is a string other than
    dgo; a dialect option that is not a string is ignored. *)
Theorem New_panics (os : Os) (tp : option LookupKey)
    (oif : option (gmap string Value)) :
  HieraDialect <> HieraConfig ->
  (exists e, New os tp oif = Panicked e) <->
  (given oif !! HieraConfig = None /\ given oif !! HieraRoot = None /\
   exists e, Getwd os = Panicked e) \/
  (exists ds, given oif !! HieraDialect = Some (VString ds) /\ ds <> "dgo").
Proof.
  intros Hne. unfold New. rewrite given_union.
  assert (Hdialect : forall options,
            withHieraConfig os (given oif) = Val options ->
            options !! HieraDialect = given oif !! HieraDialect).
  { unfold withHieraConfig. intros options.
    destruct (given oif !! HieraConfig); [by intros [= <-]|].
    destruct (given oif !! HieraRoot).
    - intros [= <-]. by rewrite lookup_insert_ne.
    - destruct (Getwd os); [|done]. intros [= <-]. by rewrite lookup_insert_ne. }
  assert (Hsel : forall options,
            (exists e, selectDialect options = Panicked e) <->
            exists ds, options !! HieraDialect = Some (VString ds) /\ ds <> "dgo").
  { intros options. unfold selectDialect.
    destruct (options !! HieraDialect) as [[|name| | | | |]|];
      try (split; [by intros [? ?]|by intros (? & ? & ?)]).
    destruct (String.eqb_spec name "dgo") as [->|Hs].
    - split; [by intros [? ?]|]. by intros (ds & [= <-] & ?).
    - split; [by exists name|]. intros _.
      destruct (String.eqb name "pcore"); by eexists. }
  destruct (withHieraConfig os (given oif)) as [options|e] eqn:Hcfg.
  - rewrite <- (Hdialect options eq_refl), <- Hsel.
    split.
    + destruct (selectDialect options); [by intros [? ?]|]. right. by eexists.
    + intros [(Hc & Hr & e & Hwd)|[e He]].
      * unfold withHieraConfig in Hcfg. by rewrite Hc, Hr, Hwd in Hcfg.
      * rewrite He. by eexists.
  - split; [|by eexists]. intros _. left.
    unfold withHieraConfig in Hcfg.
    destruct (given oif !! HieraConfig); [done|].
    destruct (given oif !! HieraRoot); [done|].
    destruct (Getwd os); [done|]. split; [done|]. split; [done|]. by eexists.
Qed.

(** X11: a session made by [New] is initialized: the top-level provider
    is the one given, or [provider.ConfigLookupKey] when none is given;
    the shared cache and the cache of the top-level provider are there
    and empty; the dialect is dgo.  A session without [vars] is not:
    every one of the four accessors panics with the error of
    [notInitialized]. *)
Theorem New_initialized (os : Os) (tp : option LookupKey)
    (oif : option (gmap string Value)) (s : session) :
  New os tp oif = Val s ->
  (TopProvider s = Val (default ConfigLookupKey tp) /\
   SharedCache s = Val ∅ /\
   TopProviderCache s = Val ∅ /\
   (exists options, SessionOptions s = Val options) /\
   Dialect s = DgoDialect) /\
  (forall d sc,
     let zero := mkSession d ∅ sc in
     TopProvider zero = Panicked notInitialized /\
     SharedCache zero = Panicked notInitialized /\
     TopProviderCache zero = Panicked notInitialized /\
     SessionOptions zero = Panicked notInitialized /\
     forall si explainer, Invocation zero si explainer = Panicked notInitialized).
Proof.
  intros Hnew.
  destruct (New_options os tp oif s Hnew)
    as (options & _ & _ & Hopt & Htp & Hcache & Htpc & _).
  split.
  - unfold TopProvider, SharedCache, TopProviderCache, SessionOptions, Get, Dialect.
    rewrite Hopt, Htp, Hcache, Htpc.
    split; [done|]. split; [done|]. split; [done|]. split; [by eexists|].
    by destruct (dialect s).
  - intros d sc. cbn. done.
Qed.

End Sessions.

(** A session made in a directory, with the file name taken from the
    environment. *)
Definition demoOs : Os :=
  mkOs (Val "/etc/hiera")
    (fun name => if String.eqb name "HIERA_CONFIGFILE" then Some "site.yaml" else None).

Definition demoJoin (dir file : string) : string := dir +:+ "/" +:+ file.

Definition demoRender (v : Value) : string := "?".

Definition demoSession : Outcome (@session nat) :=
  New 0 "Hiera::Config" "Hiera::Root" "Hiera::ConfigFileName" "Hiera::Dialect"
    "Hiera::Scope" demoRender demoJoin demoOs None None.

Definition demoVars : gmap string (@Var nat) :=
  <[hieraCacheKey := SyncMapVar ∅]>
  (<[hieraTopProviderKey := LookupKeyVar 0]>
  (<[hieraTopProviderCacheKey := SyncMapVar ∅]>
  (<[hieraSessionOptionsKey :=
       OptionsVar (<["Hiera::Config" := VString "/etc/hiera/site.yaml"]> ∅)]>
  (<[hieraPluginRegistry := PluginRegistryVar]> ∅)))).

Definition made : @session nat := mkSession DgoDialect demoVars (MapScope []).

Lemma demoSession_made : demoSession = Val made.
Proof. reflexivity. Qed.

Lemma New_config_path_witness :
  demoSession = Val made /\
  exists options cfg,
    SessionOptions made = Val options /\
    options !! "Hiera::Config" = Some cfg /\
    forall si explainer, exists iv,
      Invocation "Hiera::Config" demoRender made si explainer = Val iv /\
      configPath iv = ValueString demoRender cfg.
Proof.
  split; [exact demoSession_made|].
  destruct (New_config_path 0 "Hiera::Config" "Hiera::Root" "Hiera::ConfigFileName"
              "Hiera::Dialect" "Hiera::Scope" demoRender demoJoin demoOs None None
              made demoSession_made) as (options & cfg & H1 & H2 & _ & _ & _ & H3).
  exists options, cfg. split; [exact H1|]. split; [exact H2|exact H3].
Defined.

Lemma New_panics_witness :
  "Hiera::Dialect" <> "Hiera::Config" /\
  ((exists e,
      New 0 "Hiera::Config" "Hiera::Root" "Hiera::ConfigFileName" "Hiera::Dialect"
        "Hiera::Scope" demoRender demoJoin demoOs None
        (Some {["Hiera::Dialect" := VString "pcore"]}) = Panicked e) <->
   (given (Some {["Hiera::Dialect" := VString "pcore"]}) !! "Hiera::Config" = None /\
    given (Some {["Hiera::Dialect" := VString "pcore"]}) !! "Hiera::Root" = None /\
    exists e, Getwd demoOs = Panicked e) \/
   (exists ds,
      given (Some {["Hiera::Dialect" := VString "pcore"]}) !! "Hiera::Dialect" =
        Some (VString ds) /\ ds <> "dgo")).
Proof.
  assert (Hne : "Hiera::Dialect" <> "Hiera::Config") by discriminate.
  split; [exact Hne|].
  exact (New_panics 0 "Hiera::Config" "Hiera::Root" "Hiera::ConfigFileName"
           "Hiera::Dialect" "Hiera::Scope" demoRender demoJoin demoOs None
           (Some {["Hiera::Dialect" := VString "pcore"]}) Hne).
Defined.

Lemma New_initialized_witness :
  demoSession = Val made /\
  TopProvider made = Val 0 /\
  SharedCache made = Val ∅.
Proof.
  split; [exact demoSession_made|].
  destruct (New_initialized 0 "Hiera::Config" "Hiera::Root" "Hiera::ConfigFileName"
              "Hiera::Dialect" "Hiera::Scope" demoRender demoJoin demoOs None None
              made demoSession_made) as ((H1 & H2 & _) & _).
  split; [exact H1|exact H2].
Defined.

End SessionNew.

(** ** sync.Map, sequentially *)

Module SyncMap.
Section Ops.
Context {V : Type}.

Definition Load (m : gmap string V) (key : string) : option V := m !! key.

Definition Store (m : gmap string V) (key : string) (value : V) : gmap string V :=
  <[key := value]> m.

(** The value present and [true], or the value given, stored, and [false]. *)
Definition LoadOrStore (m : gmap string V) (key : string) (value : V)
  : V * bool * gmap string V :=
  match m !! key with
  | Some actual => (actual, true, m)
  | None => (value, false, <[key := value]> m)
  end.

End Ops.
End SyncMap.

(** ** The provider cache of the server context (internal/serverctx.go) *)

Module Serverctx.
Import SyncMap.

(** [px.Value], with the [px.Undef] sentinel. *)
Inductive PxValue : Type :=
| Undef
| PxInteger (z : Z)
| PxString (s : string)
| PxBoolean (b : bool).

(** [c.cache] is a pointer to a [sync.Map] shared by the session: the
    methods take the map and return it updated. *)
Definition Cache (key : string) (value : PxValue) (cache : gmap string PxValue)
  : PxValue * gmap string PxValue :=
  let '(old, loaded, cache1) := LoadOrStore cache key value in
  if loaded then (old, Store cache1 key value) else (Undef, cache1).

Definition CacheAll (hash : list (string * PxValue)) (cache : gmap string PxValue)
  : gmap string PxValue :=
  foldl (fun m kv => Store m kv.1 kv.2) cache hash.

(** [(v, true)] when the key is there, [(nil, false)] when not. *)
Definition CachedValue (key : string) (cache : gmap string PxValue)
  : option PxValue * bool :=
  match Load cache key with
  | Some v => (Some v, true)
  | None => (None, false)
  end.

Lemma Cache_result (key : string) (value : PxValue) (cache : gmap string PxValue) :
  Cache key value cache = (default Undef (cache !! key), <[key := value]> cache).
Proof.
  unfold Cache, LoadOrStore, Store. by destruct (cache !! key).
Qed.

(** C7: [Cache] stores the value under the key, leaves the other keys
    alone, and returns what was stored under the key before, or [Undef]
    when nothing was; [CachedValue] then finds the new value.  On an
    empty cache, caching 1 under x returns [Undef] and stores 1, caching
    2 under x then returns 1 and stores 2, and [CachedValue] of x is
    then (2, true). *)
Theorem Cache_returns_previous (key : string) (value : PxValue)
    (cache : gmap string PxValue) :
  let (old, cache') := Cache key value cache in
  cache' !! key = Some value /\
  (forall other, other <> key -> cache' !! other = cache !! other) /\
  (forall previous, cache !! key = Some previous -> old = previous) /\
  (cache !! key = None -> old = Undef) /\
  CachedValue key cache' = (Some value, true) /\
  (let (r1, c1) := Cache "x" (PxInteger 1) ∅ in
   let (r2, c2) := Cache "x" (PxInteger 2) c1 in
   r1 = Undef /\ c1 !! "x" = Some (PxInteger 1) /\
   r2 = PxInteger 1 /\ c2 !! "x" = Some (PxInteger 2) /\
   CachedValue "x" c2 = (Some (PxInteger 2), true)).
Proof.
  rewrite !Cache_result. unfold CachedValue, Load.
  rewrite !lookup_insert_eq. repeat split.
  - intros other Hne. by rewrite lookup_insert_ne.
  - by intros previous ->.
  - by intros ->.
Qed.

Lemma CacheAll_app (h1 h2 : list (string * PxValue)) (cache : gmap string PxValue) :
  CacheAll (h1 ++ h2) cache = CacheAll h2 (CacheAll h1 cache).
Proof. unfold CacheAll. apply foldl_app. Qed.

Lemma CacheAll_absent (hash : list (string * PxValue)) :
  forall (cache : gmap string PxValue) (key : string),
    key ∉ hash.*1 -> CacheAll hash cache !! key = cache !! key.
Proof.
  unfold CacheAll, Store.
  induction hash as [|[k v] hash IH]; intros cache key Hk; [done|].
  cbn in *. apply not_elem_of_cons in Hk as [Hne Hk].
  rewrite IH by done. by rewrite lookup_insert_ne.
Qed.

(** X18: [CacheAll] is caching the pairs of the hash one by one, in the
    order of the hash, with the results dropped.  So a key the hash does
    not mention keeps its entry, and a key the hash mentions ends up
    with the value of its last pair, which [CachedValue] then finds. *)
Theorem CacheAll_last_pair_wins (hash : list (string * PxValue))
    (cache : gmap string PxValue) (key : string) :
  CacheAll hash cache = foldl (fun m kv => (Cache kv.1 kv.2 m).2) cache hash /\
  (key ∉ hash.*1 ->
     CacheAll hash cache !! key = cache !! key /\
     CachedValue key (CacheAll hash cache) = CachedValue key cache) /\
  (forall before value after,
     hash = before ++ (key, value) :: after -> key ∉ after.*1 ->
     CacheAll hash cache !! key = Some value /\
     CachedValue key (CacheAll hash cache) = (Some value, true)).
Proof.
  split; [|split].
  - unfold CacheAll. revert cache.
    induction hash as [|[k v] hash IH]; intros cache; [done|].
    cbn. rewrite Cache_result. cbn. apply IH.
  - intros Hk. unfold CachedValue, Load. by rewrite CacheAll_absent.
  - intros before value after -> Hk.
    assert (Hl : CacheAll (before ++ (key, value) :: after) cache !! key = Some value).
    { rewrite CacheAll_app.
      change (CacheAll ((key, value) :: after) (CacheAll before cache))
        with (CacheAll after (Store (CacheAll before cache) key value)).
      rewrite CacheAll_absent by done. apply lookup_insert_eq. }
    unfold CachedValue, Load. by rewrite Hl.
Qed.

(** X19: entries under different keys do not affect each other: caching
    under two different keys gives the same results and the same cache
    in either order. *)
Theorem Cache_keys_independent (k1 k2 : string) (v1 v2 : PxValue)
    (cache : gmap string PxValue) :
  k1 <> k2 ->
  let first := Cache k1 v1 cache in
  let second := Cache k2 v2 first.2 in
  let first' := Cache k2 v2 cache in
  let second' := Cache k1 v1 first'.2 in
  first.1 = second'.1 /\ second.1 = first'.1 /\ second.2 = second'.2.
Proof.
  intros Hne. cbn zeta. rewrite !Cache_result. cbn.
  rewrite !lookup_insert_ne by done.
  split; [done|]. split; [done|]. by apply insert_insert_ne.
Qed.

Lemma CacheAll_last_pair_wins_witness :
  ("x" ∉ [("y", PxInteger 1)].*1) /\
  CacheAll [("y", PxInteger 1)] {["x" := PxBoolean true]} !! "x" =
    ({["x" := PxBoolean true]} : gmap string PxValue) !! "x".
Proof.
  assert (Hx : "x" ∉ [("y", PxInteger 1)].*1).
  { cbn. intros H. apply list_elem_of_singleton in H. discriminate H. }
  split; [exact Hx|].
  destruct (CacheAll_last_pair_wins [("y", PxInteger 1)] {["x" := PxBoolean true]} "x")
    as (_ & H & _).
  exact (proj1 (H Hx)).
Defined.

Lemma Cache_keys_independent_witness :
  "x" <> "y" /\
  (Cache "y" (PxInteger 2) (Cache "x" (PxInteger 1) ∅).2).2 =
  (Cache "x" (PxInteger 1) (Cache "y" (PxInteger 2) ∅).2).2.
Proof.
  assert (Hne : "x" <> "y") by discriminate.
  split; [exact Hne|].
  destruct (Cache_keys_independent "x" "y" (PxInteger 1) (PxInteger 2) ∅ Hne)
    as (_ & _ & H).
  exact H.
Defined.

End Serverctx.

(** ** Concurrent callers of [Config] (session.go, lines 355-400)

    Each caller is a goroutine with an invocation of its own, so with a
    memo [configs] of its own; the callers share the session's cache.
    A step of a caller is one operation on the shared cache or on a
    mutex, each of them atomic in Go, together with the local code up to
    the next one.  A schedule is the order in which the callers step.
    [config.New] returns a Config or panics; the panic leaves [Config]
    without unlocking the mutex the caller has published. *)

Module ConfigFlight.
Import SyncMap.

Definition hieraConfigsPrefix : string := "HieraConfig:".
Definition hieraLockPrefix : string := "HieraLock:".

(** [sync.RWMutex] *)
Record RWMutex : Type := mkRWMutex {
  writer : bool;
  readers : nat
}.

(** [myLock := sync.RWMutex{}; myLock.Lock()] *)
Definition locked : RWMutex := mkRWMutex true 0.

(** [RLock]: [None] while a writer holds the mutex (the caller blocks). *)
Definition RLock (m : RWMutex) : option RWMutex :=
  if writer m then None else Some (mkRWMutex false (S (readers m))).

(** [RUnlock]: [None] on a mutex without readers (a fatal error in Go). *)
Definition RUnlock (m : RWMutex) : option RWMutex :=
  match readers m with
  | 0 => None
  | S n => Some (mkRWMutex (writer m) n)
  end.

(** [Unlock]: [None] on a mutex not locked for writing (a fatal error). *)
Definition Unlock (m : RWMutex) : option RWMutex :=
  if writer m then Some (mkRWMutex false (readers m)) else None.

(** How a caller came by its Config (a history variable). *)
Inductive Route : Type :=
| Memo          (* found in the memo of its invocation *)
| FastPath      (* found in the shared cache by the first Load *)
| Constructed   (* ran config.New *)
| Waited        (* took the read lock on the published mutex and re-read *)
| LockSlot.     (* found a Config in the slot of the lock *)

Section Callers.

Context {Config : Type}.              (* hieraapi.Config *)
Context {ResolvedConfig : Type}.      (* hieraapi.ResolvedConfig *)
(** [config.New]: what the n-th parse of the session yields for a path,
    a Config or the panic of a configuration that does not parse. *)
Variable configNew : nat -> string -> Session.Outcome Config.
(** [Resolve(ic, conf, moduleName)] *)
Variable Resolve : Config -> string -> ResolvedConfig.
(** [ic.SessionOptions().Get(hieraapi.HieraConfig).String()] *)
Variable sessionConfigPath : string.

(** What the shared cache holds: a Config, or the address of the mutex
    a caller published (the mutex of caller [owner]). *)
Inductive Cached : Type :=
| CachedConfig (conf : Config)
| CachedLock (owner : nat).

(** Where a caller is in [Config]. *)
Inductive Pc : Type :=
| AtEntry                                 (* line 356: before the memo is read *)
| AtLoad                                  (* line 366: sc.Load(cp) *)
| AtLock                                  (* lines 374-375: myLock.Lock() *)
| AtLoadOrStore                           (* line 378: sc.LoadOrStore(lc, &myLock) *)
| AtUnlockLoser (lv : Cached)             (* line 380: myLock.Unlock() *)
| AtRLock (lock : nat)                    (* line 385: lock.RLock() *)
| AtReload (lock : nat)                   (* line 386: sc.Load(cp) *)
| AtRUnlock (lock : nat) (conf : Config)  (* line 388: lock.RUnlock() *)
| AtNew                                   (* line 393: config.New(configPath) *)
| AtStore (conf : Config)                 (* line 394: sc.Store(cp, conf) *)
| AtUnlockWinner (conf : Config)          (* line 395: myLock.Unlock() *)
| AtResolve (conf : Config)               (* lines 367-369, 397-399 *)
| Returned (rc : ResolvedConfig)
| Panicking (e : Session.Error)           (* line 393: config.New panicked *)
| Crashed.                                (* a failed type assertion, a fatal error *)

Record Caller : Type := mkCaller {
  configPath : string;
  moduleName : string;
  configs : gmap string ResolvedConfig;
  pc : Pc;
  route : option Route
}.

Record State : Type := mkState {
  SharedCache : gmap string Cached;
  mutexes : gmap nat RWMutex;
  parses : nat;
  callers : list Caller
}.

(** Lines 357-359: the empty path stands for the path of the session. *)
Definition pathOf (c : Caller) : string :=
  if String.eqb (configPath c) "" then sessionConfigPath else configPath c.

Definition cpKey (path : string) : string := hieraConfigsPrefix +:+ path.
Definition lcKey (path : string) : string := hieraLockPrefix +:+ path.

Definition at_ (p : Pc) (r : option Route) (c : Caller) : Caller :=
  mkCaller (configPath c) (moduleName c) (configs c) p r.

Definition moved (i : nat) (c : Caller) (s : State) : list Caller :=
  <[i := c]> (callers s).

(** One step of caller [i]; [None] when it has returned, panicked or
    crashed, or is blocked.  The panic of [config.New] leaves [Config]
    at once, for whoever recovers it further up: the [Unlock] of line
    395 is not deferred, so the published mutex stays locked for
    writing. *)
Definition step (i : nat) (s : State) : option State :=
  match callers s !! i with
  | None => None
  | Some c =>
      let cp := cpKey (pathOf c) in
      let lc := lcKey (pathOf c) in
      let goes p r :=
        Some (mkState (SharedCache s) (mutexes s) (parses s) (moved i (at_ p r c) s)) in
      match pc c with
      | AtEntry =>
          match configs c !! pathOf c with
          | Some rc => goes (Returned rc) (Some Memo)
          | None => goes AtLoad (route c)
          end
      | AtLoad =>
          match Load (SharedCache s) cp with
          | Some (CachedConfig conf) => goes (AtResolve conf) (Some FastPath)
          | Some (CachedLock _) => goes Crashed (route c)
          | None => goes AtLock (route c)
          end
      | AtLock =>
          Some (mkState (SharedCache s) (<[i := locked]> (mutexes s))
                  (parses s) (moved i (at_ AtLoadOrStore (route c) c) s))
      | AtLoadOrStore =>
          let '(lv, loaded, cache') := LoadOrStore (SharedCache s) lc (CachedLock i) in
          if loaded then
            Some (mkState cache' (mutexes s) (parses s)
                    (moved i (at_ (AtUnlockLoser lv) (route c) c) s))
          else
            Some (mkState cache' (mutexes s) (parses s)
                    (moved i (at_ AtNew (route c) c) s))
      | AtUnlockLoser lv =>
          match mutexes s !! i ≫= Unlock with
          | Some m' =>
              match lv with
              | CachedLock lock =>
                  Some (mkState (SharedCache s) (<[i := m']> (mutexes s)) (parses s)
                          (moved i (at_ (AtRLock lock) (route c) c) s))
              | CachedConfig conf =>
                  Some (mkState (SharedCache s) (<[i := m']> (mutexes s)) (parses s)
                          (moved i (at_ (AtResolve conf) (Some LockSlot) c) s))
              end
          | None => goes Crashed (route c)
          end
      | AtRLock lock =>
          match mutexes s !! lock with
          | Some m =>
              match RLock m with
              | Some m' =>
                  Some (mkState (SharedCache s) (<[lock := m']> (mutexes s)) (parses s)
                          (moved i (at_ (AtReload lock) (Some Waited) c) s))
              | None => None
              end
          | None => goes Crashed (route c)
          end
      | AtReload lock =>
          match Load (SharedCache s) cp with
          | Some (CachedConfig conf) => goes (AtRUnlock lock conf) (route c)
          | _ => goes Crashed (route c)
          end
      | AtRUnlock lock conf =>
          match mutexes s !! lock ≫= RUnlock with
          | Some m' =>
              Some (mkState (SharedCache s) (<[lock := m']> (mutexes s)) (parses s)
                      (moved i (at_ (AtResolve conf) (route c) c) s))
          | None => goes Crashed (route c)
          end
      | AtNew =>
          match configNew (parses s) (pathOf c) with
          | Session.Val conf =>
              Some (mkState (SharedCache s) (mutexes s) (S (parses s))
                      (moved i (at_ (AtStore conf) (Some Constructed) c) s))
          | Session.Panicked e =>
              Some (mkState (SharedCache s) (mutexes s) (S (parses s))
                      (moved i (at_ (Panicking e) (route c) c) s))
          end
      | AtStore conf =>
          Some (mkState (Store (SharedCache s) cp (CachedConfig conf)) (mutexes s)
                  (parses s) (moved i (at_ (AtUnlockWinner conf) (route c) c) s))
      | AtUnlockWinner conf =>
          match mutexes s !! i ≫= Unlock with
          | Some m' =>
              Some (mkState (SharedCache s) (<[i := m']> (mutexes s)) (parses s)
                      (moved i (at_ (AtResolve conf) (route c) c) s))
          | None => goes Crashed (route c)
          end
      | AtResolve conf =>
          let rc := Resolve conf (moduleName c) in
          Some (mkState (SharedCache s) (mutexes s) (parses s)
                  (moved i (mkCaller (configPath c) (moduleName c)
                              (<[pathOf c := rc]> (configs c)) (Returned rc) (route c)) s))
      | Returned _ => None
      | Panicking _ => None
      | Crashed => None
      end
  end.

(** The callers step in the order of the schedule. *)
Fixpoint run (schedule : list nat) (s : State) : option State :=
  match schedule with
  | [] => Some s
  | i :: rest =>
      match step i s with
      | Some s' => run rest s'
      | None => None
      end
  end.

(** A fresh session, and one caller per module name, each on a new
    invocation ([newInvocation]: an empty memo), all asking for [path]. *)
Definition fresh (path : string) (modules : list string) : State :=
  mkState ∅ ∅ 0 (map (fun m => mkCaller path m ∅ AtEntry None) modules).

Definition finished (p : Pc) : bool :=
  match p with
  | Returned _ | Panicking _ | Crashed => true
  | _ => false
  end.

(** *** The invariant of the runs from a fresh session *)

Variable path : string.
Variable modules : list string.

Definition thePath : string :=
  if String.eqb path "" then sessionConfigPath else path.

Definition cp : string := cpKey thePath.
Definition lc : string := lcKey thePath.

(** The first parse returned [conf]. *)
Definition parsed (conf : Config) : Prop := configNew 0 thePath = Session.Val conf.

(** The configuration slot holds the Config of the first parse. *)
Definition published (cache : gmap string Cached) : Prop :=
  exists conf, parsed conf /\ cache !! cp = Some (CachedConfig conf).

Definition winning (p : Pc) : bool :=
  match p with
  | AtNew | AtStore _ | AtUnlockWinner _ | Panicking _ => true
  | _ => false
  end.

Definition holding (p : Pc) : bool :=
  match p with
  | AtResolve _ | Returned _ => true
  | _ => false
  end.

(** The route of a caller that holds the Config, given the owner of the
    published mutex. *)
Definition route_ok (cache : gmap string Cached) (i : nat) (c : Caller) : Prop :=
  exists owner,
    cache !! lc = Some (CachedLock owner) /\
    ((route c = Some Constructed /\ owner = i) \/
     ((route c = Some FastPath \/ route c = Some Waited) /\ owner <> i)).

Definition caller_ok (cache : gmap string Cached) (mx : gmap nat RWMutex)
    (n : nat) (i : nat) (c : Caller) : Prop :=
  configPath c = path /\
  modules !! i = Some (moduleName c) /\
  match pc c with
  | AtEntry => configs c !! thePath = None /\ route c = None
  | AtLoad | AtLock => route c = None
  | AtLoadOrStore =>
      route c = None /\ exists m, mx !! i = Some m /\ writer m = true
  | AtUnlockLoser lv =>
      route c = None /\ cache !! lc = Some lv /\ lv <> CachedLock i /\
      exists m, mx !! i = Some m /\ writer m = true
  | AtRLock l =>
      route c = None /\ cache !! lc = Some (CachedLock l) /\ l <> i
  | AtReload l =>
      route c = Some Waited /\ cache !! lc = Some (CachedLock l) /\ l <> i /\
      published cache
  | AtRUnlock l conf =>
      route c = Some Waited /\ cache !! lc = Some (CachedLock l) /\ l <> i /\
      parsed conf /\ cache !! cp = Some (CachedConfig conf)
  | AtNew =>
      route c = None /\ cache !! lc = Some (CachedLock i) /\
      cache !! cp = None /\ n = 0
  | AtStore conf =>
      route c = Some Constructed /\ cache !! lc = Some (CachedLock i) /\
      parsed conf /\ cache !! cp = None /\ n = 1
  | AtUnlockWinner conf =>
      route c = Some Constructed /\ cache !! lc = Some (CachedLock i) /\
      parsed conf /\ cache !! cp = Some (CachedConfig conf)
  | AtResolve conf =>
      parsed conf /\ cache !! cp = Some (CachedConfig conf) /\
      route_ok cache i c
  | Returned rc =>
      (exists conf,
         parsed conf /\ rc = Resolve conf (moduleName c) /\
         cache !! cp = Some (CachedConfig conf)) /\
      route_ok cache i c
  | Panicking e =>
      route c = None /\ cache !! lc = Some (CachedLock i) /\
      configNew 0 thePath = Session.Panicked e /\ cache !! cp = None /\ n = 1
  | Crashed => False
  end.

(** The callers that hold mutex [l] for reading. *)
Definition reading (l : nat) (p : Pc) : nat :=
  match p with
  | AtReload l' | AtRUnlock l' _ => if decide (l' = l) then 1 else 0
  | _ => 0
  end.

Fixpoint readersOf (l : nat) (cs : list Caller) : nat :=
  match cs with
  | [] => 0
  | c :: rest => reading l (pc c) + readersOf l rest
  end.

(** The owner of the published mutex holds it for writing until it has
    stored the Config, and for ever when its parse has panicked. *)
Definition owner_ok (cache : gmap string Cached) (c : Caller) (m : RWMutex) : Prop :=
  (winning (pc c) = true /\ writer m = true) \/
  (holding (pc c) = true /\ writer m = false /\
   published cache /\ route c = Some Constructed).

Record Inv (s : State) : Prop := mkInv {
  inv_callers :
    forall i c, callers s !! i = Some c ->
      caller_ok (SharedCache s) (mutexes s) (parses s) i c;
  inv_config :
    forall v, SharedCache s !! cp = Some v ->
      (exists conf, v = CachedConfig conf /\ parsed conf) /\ parses s = 1 /\
      exists owner, SharedCache s !! lc = Some (CachedLock owner);
  inv_lock :
    forall v, SharedCache s !! lc = Some v ->
      exists owner c m,
        v = CachedLock owner /\ callers s !! owner = Some c /\
        mutexes s !! owner = Some m /\ owner_ok (SharedCache s) c m;
  inv_before :
    SharedCache s !! lc = None ->
      SharedCache s !! cp = None /\ parses s = 0;
  inv_parses : parses s <= 1;
  inv_readers :
    forall l m, mutexes s !! l = Some m -> readers m = readersOf l (callers s);
  inv_length : length (callers s) = length modules
}.

(** The steps a caller has left, at most. *)
Definition rank (p : Pc) : nat :=
  match p with
  | AtEntry => 12
  | AtLoad => 11
  | AtLock => 10
  | AtLoadOrStore => 9
  | AtUnlockLoser _ => 8
  | AtRLock _ => 7
  | AtReload _ => 6
  | AtRUnlock _ _ => 5
  | AtNew => 4
  | AtStore _ => 3
  | AtUnlockWinner _ => 2
  | AtResolve _ => 1
  | Returned _ => 0
  | Panicking _ => 0
  | Crashed => 0
  end.

Fixpoint total (l : list Caller) : nat :=
  match l with
  | [] => 0
  | c :: rest => rank (pc c) + total rest
  end.

(** The Config a caller has in hand. *)
Definition inHand (p : Pc) : option Config :=
  match p with
  | AtRUnlock _ conf | AtStore conf | AtUnlockWinner conf | AtResolve conf => Some conf
  | _ => None
  end.

(** A second call of [Config] on the invocation of a caller that has
    returned: the memo is the one the first call left, the module name
    may differ. *)
Definition again (moduleName' : string) (c : Caller) : Caller :=
  mkCaller (configPath c) moduleName' (configs c) AtEntry None.

Definition returned (p : Pc) : bool :=
  match p with
  | Returned _ => true
  | _ => false
  end.

(** Every caller that has returned left its result in the memo of its
    invocation. *)
Definition memoised (s : State) : Prop :=
  forall i c rc,
    callers s !! i = Some c -> pc c = Returned rc ->
    configs c !! pathOf c = Some rc.

Lemma cp_lc : cp <> lc.
Proof.
  unfold cp, lc, cpKey, lcKey, hieraConfigsPrefix, hieraLockPrefix.
  cbn. intros H. inversion H.
Qed.

Lemma Inv_fresh : Inv (fresh path modules).
Proof.
  split; cbn.
  - intros i c Hi. rewrite list_lookup_fmap in Hi.
    destruct (modules !! i) as [m|] eqn:Hm; [|done].
    injection Hi as <-. repeat split; done.
  - intros v Hv. by rewrite lookup_empty in Hv.
  - intros v Hv. by rewrite lookup_empty in Hv.
  - done.
  - lia.
  - intros l m Hm. by rewrite lookup_empty in Hm.
  - by rewrite length_map.
Qed.

Lemma caller_ok_mutexes cache mx mx' n j c :
  caller_ok cache mx n j c ->
  (forall m, mx !! j = Some m -> writer m = true ->
             exists m', mx' !! j = Some m' /\ writer m' = true) ->
  caller_ok cache mx' n j c.
Proof.
  unfold caller_ok. intros (Hp & Hm & H) Hmx. split; [done|split; [done|]].
  destruct (pc c); try done.
  - destruct H as (Hr & m & Hl & Hw). split; [done|]. by apply (Hmx m).
  - destruct H as (Hr & Hlc & Hlv & m & Hl & Hw). repeat split; try done.
    by apply (Hmx m).
Qed.

Lemma caller_ok_publish cache mx n j c v :
  cache !! lc = None -> cache !! cp = None ->
  caller_ok cache mx n j c ->
  caller_ok (<[lc := v]> cache) mx n j c.
Proof.
  unfold caller_ok, route_ok, published. intros Hlc Hcp (Hp & Hm & H).
  split; [done|split; [done|]].
  destruct (pc c); try done; naive_solver.
Qed.

Lemma caller_ok_parse cache mx j c i :
  i <> j -> cache !! lc = Some (CachedLock i) ->
  caller_ok cache mx 0 j c ->
  caller_ok cache mx 1 j c.
Proof.
  unfold caller_ok. intros Hne Hlc (Hp & Hm & H).
  split; [done|split; [done|]].
  destruct (pc c); try done; naive_solver.
Qed.

Lemma parsed_once (a b : Config) : parsed a -> parsed b -> a = b.
Proof. unfold parsed. congruence. Qed.

Lemma caller_ok_store cache mx n j c i conf :
  i <> j -> cache !! lc = Some (CachedLock i) -> cache !! cp = None ->
  parsed conf ->
  caller_ok cache mx n j c ->
  caller_ok (<[cp := CachedConfig conf]> cache) mx n j c.
Proof.
  unfold caller_ok, route_ok, published. intros Hne Hlc Hcp Hconf (Hp & Hm & H).
  pose proof cp_lc as Hk.
  split; [done|split; [done|]].
  destruct (pc c); try done;
    rewrite ?lookup_insert_eq, ?lookup_insert_ne by done; naive_solver.
Qed.

Lemma pathOf_thePath (c : Caller) : configPath c = path -> pathOf c = thePath.
Proof. unfold pathOf, thePath. by intros ->. Qed.

Lemma moved_lookup_eq (s : State) (i : nat) (c c' : Caller) :
  callers s !! i = Some c -> moved i c' s !! i = Some c'.
Proof.
  intros H. unfold moved. apply list_lookup_insert_eq. by eapply lookup_lt_Some.
Qed.

Lemma moved_lookup_ne (s : State) (i j : nat) (c' : Caller) :
  i <> j -> moved i c' s !! j = callers s !! j.
Proof. intros H. unfold moved. by apply list_lookup_insert_ne. Qed.

Lemma moved_length (s : State) (i : nat) (c' : Caller) :
  length (moved i c' s) = length (callers s).
Proof. unfold moved. apply length_insert. Qed.

Lemma readersOf_insert (l : nat) (cs : list Caller) (i : nat) (c c' : Caller) :
  cs !! i = Some c ->
  readersOf l (<[i := c']> cs) + reading l (pc c) =
    readersOf l cs + reading l (pc c').
Proof.
  revert i. induction cs as [|x cs IH]; intros [|i] H; try done.
  - injection H as ->. cbn. lia.
  - change (<[S i := c']> (x :: cs)) with (x :: <[i := c']> cs).
    cbn [readersOf]. specialize (IH i H). lia.
Qed.

Lemma readersOf_member (l : nat) (cs : list Caller) (i : nat) (c : Caller) :
  cs !! i = Some c -> reading l (pc c) <= readersOf l cs.
Proof.
  revert i. induction cs as [|x cs IH]; intros [|i] H; try done.
  - injection H as ->. cbn. lia.
  - cbn [readersOf]. specialize (IH i H). lia.
Qed.

Lemma readersOf_none (l : nat) (cs : list Caller) :
  (forall i c, cs !! i = Some c -> reading l (pc c) = 0) -> readersOf l cs = 0.
Proof.
  induction cs as [|x cs IH]; intros H; [done|]. cbn [readersOf].
  rewrite (H 0 x eq_refl), IH; [done|]. intros i c Hc. by apply (H (S i)).
Qed.

(** The readers after a step of caller [i] that leaves the mutexes alone
    and does not change what the caller holds for reading. *)
Lemma readers_moved (s : State) (i : nat) (c c' : Caller) (l : nat) :
  callers s !! i = Some c ->
  reading l (pc c') = reading l (pc c) ->
  readersOf l (moved i c' s) = readersOf l (callers s).
Proof.
  intros Hc Hr. pose proof (readersOf_insert l (callers s) i c c' Hc) as H.
  unfold moved. lia.
Qed.

(** A step that changes the caller alone. *)
Lemma Inv_local (s : State) (i : nat) (c c' : Caller) :
  Inv s -> callers s !! i = Some c ->
  caller_ok (SharedCache s) (mutexes s) (parses s) i c' ->
  (forall m, owner_ok (SharedCache s) c m -> owner_ok (SharedCache s) c' m) ->
  (forall l, reading l (pc c') = reading l (pc c)) ->
  Inv (mkState (SharedCache s) (mutexes s) (parses s) (moved i c' s)).
Proof.
  intros HI Hc Hok Hown Hread. split; cbn.
  - intros j cj Hj. destruct (decide (i = j)) as [<-|Hne].
    + rewrite (moved_lookup_eq s i c c' Hc) in Hj. by injection Hj as <-.
    + rewrite moved_lookup_ne in Hj by done. by apply (inv_callers s HI).
  - apply (inv_config s HI).
  - intros v Hv. destruct (inv_lock s HI v Hv) as (owner & co & m & -> & Hco & Hm & Ho).
    destruct (decide (i = owner)) as [<-|Hne].
    + exists i, c', m. rewrite (moved_lookup_eq s i c c' Hc).
      rewrite Hc in Hco. injection Hco as <-. auto.
    + exists owner, co, m. rewrite moved_lookup_ne by done. auto.
  - apply (inv_before s HI).
  - apply (inv_parses s HI).
  - intros l m Hm. rewrite (readers_moved s i c c' l Hc (Hread l)).
    by apply (inv_readers s HI).
  - rewrite moved_length. apply (inv_length s HI).
Qed.

Lemma owner_ok_writer cache c c' m m' :
  writer m' = writer m -> pc c' = pc c -> route c' = route c ->
  owner_ok cache c m -> owner_ok cache c' m'.
Proof. unfold owner_ok. intros -> -> ->. done. Qed.

(** The owner of the published mutex is past [LoadOrStore]. *)
Lemma owner_not_racing (s : State) (i owner : nat) (c : Caller) :
  Inv s -> callers s !! i = Some c ->
  SharedCache s !! lc = Some (CachedLock owner) ->
  winning (pc c) = false -> holding (pc c) = false ->
  owner <> i.
Proof.
  intros HI Hc Hlc Hw Hh ->.
  destruct (inv_lock s HI _ Hlc) as (o & co & m & [= <-] & Hco & _ & Ho).
  rewrite Hc in Hco. injection Hco as <-.
  destruct Ho as [[? _]|[? _]]; congruence.
Qed.

(** Nobody reads the mutex of a caller that has not published it. *)
Lemma racing_no_readers (s : State) (i : nat) (c : Caller) :
  Inv s -> callers s !! i = Some c ->
  winning (pc c) = false -> holding (pc c) = false ->
  readersOf i (callers s) = 0.
Proof.
  intros HI Hc Hw Hh. apply readersOf_none. intros j cj Hj.
  destruct (inv_callers s HI j cj Hj) as (_ & _ & Hpc).
  destruct (pc cj) eqn:Hp; try done; cbn; case_decide; try done; subst;
    destruct Hpc as (_ & Hlc & _);
    by destruct (owner_not_racing s i i c HI Hc Hlc Hw Hh).
Qed.

Lemma Inv_step (s s' : State) (i : nat) :
  Inv s -> step i s = Some s' -> Inv s'.
Proof.
  intros HI Hstep. unfold step in Hstep.
  destruct (callers s !! i) as [c|] eqn:Hc; [|done].
  destruct (inv_callers s HI i c Hc) as (Hpath & Hmod & Hpc).
  rewrite (pathOf_thePath c Hpath) in Hstep. fold cp lc in Hstep.
  cbv zeta in Hstep.
  destruct (pc c) eqn:Hpcc.
  - (* AtEntry *)
    destruct Hpc as [Hmemo Hroute]. rewrite Hmemo in Hstep. injection Hstep as <-.
    apply (Inv_local s i c); [done|done|by repeat split| |by intros; rewrite Hpcc].
    intros m [[Hw _]|[Hh _]]; by rewrite Hpcc in *.
  - (* AtLoad *)
    unfold Load in Hstep.
    destruct (SharedCache s !! cp) as [[conf|l]|] eqn:Hcp; injection Hstep as <-.
    + destruct (inv_config s HI _ Hcp) as ((conf' & [= <-] & Hconf) & Hn & owner & Hlc).
      apply (Inv_local s i c); [done|done| | |by intros; rewrite Hpcc].
      * split; [done|]. split; [done|]. cbn. split; [done|]. split; [done|].
        exists owner. split; [done|]. right. split; [by left|].
        eapply owner_not_racing; eauto; by rewrite Hpcc.
      * intros m [[Hw _]|[Hh _]]; by rewrite Hpcc in *.
    + by destruct (inv_config s HI _ Hcp) as ((conf' & [=] & _) & _).
    + apply (Inv_local s i c); [done|done|by repeat split| |by intros; rewrite Hpcc].
      intros m [[Hw _]|[Hh _]]; by rewrite Hpcc in *.
  - (* AtLock *)
    injection Hstep as <-.
    assert (Hnone : readersOf i (callers s) = 0)
      by (eapply racing_no_readers; eauto; by rewrite Hpcc).
    split; cbn.
    + intros j cj Hj. destruct (decide (i = j)) as [<-|Hne].
      * rewrite (moved_lookup_eq s i c _ Hc) in Hj. injection Hj as <-.
        repeat split; [done..|]. eexists. by rewrite lookup_insert_eq.
      * rewrite moved_lookup_ne in Hj by done.
        apply (caller_ok_mutexes _ (mutexes s)); [by apply (inv_callers s HI)|].
        intros m Hm Hw. exists m. by rewrite lookup_insert_ne.
    + apply (inv_config s HI).
    + intros v Hv.
      destruct (inv_lock s HI v Hv) as (owner & co & m & -> & Hco & Hm & Ho).
      assert (owner <> i) by (eapply owner_not_racing; eauto; by rewrite Hpcc).
      exists owner, co, m. rewrite moved_lookup_ne, lookup_insert_ne by done. auto.
    + apply (inv_before s HI).
    + apply (inv_parses s HI).
    + intros l m Hm. rewrite (readers_moved s i c _ l Hc) by (by rewrite Hpcc).
      destruct (decide (i = l)) as [<-|Hne].
      * rewrite lookup_insert_eq in Hm. injection Hm as <-. by rewrite Hnone.
      * rewrite lookup_insert_ne in Hm by done. by apply (inv_readers s HI).
    + rewrite moved_length. apply (inv_length s HI).
  - (* AtLoadOrStore *)
    destruct Hpc as (Hroute & m & Hm & Hw). unfold LoadOrStore in Hstep.
    destruct (SharedCache s !! lc) as [lv|] eqn:Hlc; injection Hstep as <-.
    + apply (Inv_local s i c); [done|done| | |by intros; rewrite Hpcc].
      * repeat split; [done..| |by exists m]. intros ->.
        eapply (owner_not_racing s i i c); eauto; by rewrite Hpcc.
      * intros m0 [[? _]|[? _]]; by rewrite Hpcc in *.
    + destruct (inv_before s HI Hlc) as [Hcp Hn]. pose proof cp_lc as Hk.
      split; cbn.
      * intros j cj Hj. destruct (decide (i = j)) as [<-|Hne].
        -- rewrite (moved_lookup_eq s i c _ Hc) in Hj. injection Hj as <-.
           repeat split; rewrite ?lookup_insert_eq, ?lookup_insert_ne by done; done.
        -- rewrite moved_lookup_ne in Hj by done.
           apply caller_ok_publish; [done..|]. by apply (inv_callers s HI).
      * intros v Hv. rewrite lookup_insert_ne in Hv by done. congruence.
      * intros v Hv. rewrite lookup_insert_eq in Hv. injection Hv as <-.
        eexists i, _, m. rewrite (moved_lookup_eq s i c _ Hc).
        repeat split; try done; by left.
      * rewrite lookup_insert_eq. done.
      * apply (inv_parses s HI).
      * intros l m0 Hm0. rewrite (readers_moved s i c _ l Hc) by (by rewrite Hpcc).
        by apply (inv_readers s HI).
      * rewrite moved_length. apply (inv_length s HI).
  - (* AtUnlockLoser *)
    destruct Hpc as (Hroute & Hlc & Hlv & m & Hm & Hw).
    rewrite Hm in Hstep. cbn in Hstep. unfold Unlock in Hstep. rewrite Hw in Hstep.
    destruct (inv_lock s HI _ Hlc) as (owner & co & mo & -> & Hco & Hmo & Ho).
    injection Hstep as <-.
    assert (Hoi : owner <> i) by congruence.
    split; cbn.
    + intros j cj Hj. destruct (decide (i = j)) as [<-|Hne].
      * rewrite (moved_lookup_eq s i c _ Hc) in Hj. injection Hj as <-.
        repeat split; done.
      * rewrite moved_lookup_ne in Hj by done.
        apply (caller_ok_mutexes _ (mutexes s)); [by apply (inv_callers s HI)|].
        intros m0 Hm0 Hw0. exists m0. by rewrite lookup_insert_ne.
    + apply (inv_config s HI).
    + intros v Hv. rewrite Hlc in Hv. injection Hv as <-.
      exists owner, co, mo. rewrite moved_lookup_ne, lookup_insert_ne by done. auto.
    + apply (inv_before s HI).
    + apply (inv_parses s HI).
    + intros l m0 Hm0. rewrite (readers_moved s i c _ l Hc) by (by rewrite Hpcc).
      destruct (decide (i = l)) as [<-|Hne].
      * rewrite lookup_insert_eq in Hm0. injection Hm0 as <-. cbn.
        by apply (inv_readers s HI).
      * rewrite lookup_insert_ne in Hm0 by done. by apply (inv_readers s HI).
    + rewrite moved_length. apply (inv_length s HI).
  - (* AtRLock *)
    destruct Hpc as (Hroute & Hlc & Hli).
    destruct (inv_lock s HI _ Hlc) as (owner & co & m & [= <-] & Hco & Hm & Ho).
    rewrite Hm in Hstep. unfold RLock in Hstep.
    destruct (writer m) eqn:Hw; [done|]. injection Hstep as <-.
    destruct Ho as [[_ ?]|(Hh & _ & Hcp & Hr)]; [congruence|].
    split; cbn.
    + intros j cj Hj. destruct (decide (i = j)) as [<-|Hne].
      * rewrite (moved_lookup_eq s i c _ Hc) in Hj. injection Hj as <-.
        repeat split; done.
      * rewrite moved_lookup_ne in Hj by done.
        apply (caller_ok_mutexes _ (mutexes s)); [by apply (inv_callers s HI)|].
        intros m0 Hm0 Hw0. destruct (decide (lock = j)) as [<-|Hlj].
        -- congruence.
        -- exists m0. by rewrite lookup_insert_ne.
    + apply (inv_config s HI).
    + intros v Hv. rewrite Hlc in Hv. injection Hv as <-.
      eexists lock, co, _. rewrite moved_lookup_ne, lookup_insert_eq by done.
      repeat split; try done; right; done.
    + apply (inv_before s HI).
    + apply (inv_parses s HI).
    + intros l m0 Hm0.
      pose proof (readersOf_insert l (callers s) i c
                    (at_ (AtReload lock) (Some Waited) c) Hc) as Hrd.
      rewrite Hpcc in Hrd. cbn in Hrd. unfold moved.
      destruct (decide (lock = l)) as [<-|Hne].
      * rewrite lookup_insert_eq in Hm0. injection Hm0 as <-. cbn.
        rewrite (inv_readers s HI lock m Hm). rewrite ?decide_True in Hrd by done. lia.
      * rewrite lookup_insert_ne in Hm0 by done.
        rewrite (inv_readers s HI l m0 Hm0). rewrite ?decide_False in Hrd by done. lia.
    + rewrite moved_length. apply (inv_length s HI).
  - (* AtReload *)
    destruct Hpc as (Hroute & Hlc & Hli & conf & Hconf & Hcp). unfold Load in Hstep.
    rewrite Hcp in Hstep. injection Hstep as <-.
    apply (Inv_local s i c); [done|done|by repeat split| |by intros; rewrite Hpcc].
    intros m [[? _]|[? _]]; by rewrite Hpcc in *.
  - (* AtRUnlock *)
    destruct Hpc as (Hroute & Hlc & Hli & Hconf & Hcp).
    destruct (inv_lock s HI _ Hlc) as (owner & co & m & [= <-] & Hco & Hm & Ho).
    pose proof (readersOf_member lock (callers s) i c Hc) as Hin.
    rewrite Hpcc in Hin. cbn in Hin. rewrite decide_True in Hin by done.
    pose proof (inv_readers s HI lock m Hm) as Hrm.
    rewrite Hm in Hstep. cbn in Hstep. unfold RUnlock in Hstep.
    destruct (readers m) as [|n] eqn:Hn; [lia|]. injection Hstep as <-.
    split; cbn.
    + intros j cj Hj. destruct (decide (i = j)) as [<-|Hne].
      * rewrite (moved_lookup_eq s i c _ Hc) in Hj. injection Hj as <-.
        repeat split; [done..|]. exists lock. split; [done|]. right. auto.
      * rewrite moved_lookup_ne in Hj by done.
        apply (caller_ok_mutexes _ (mutexes s)); [by apply (inv_callers s HI)|].
        intros m0 Hm0 Hw0. destruct (decide (lock = j)) as [<-|Hlj].
        -- rewrite lookup_insert_eq. eexists. split; [done|]. cbn. congruence.
        -- exists m0. by rewrite lookup_insert_ne.
    + apply (inv_config s HI).
    + intros v Hv. rewrite Hlc in Hv. injection Hv as <-.
      eexists lock, co, _. rewrite moved_lookup_ne, lookup_insert_eq by done.
      repeat split; try done; by apply (owner_ok_writer _ co co m).
    + apply (inv_before s HI).
    + apply (inv_parses s HI).
    + intros l m0 Hm0.
      pose proof (readersOf_insert l (callers s) i c
                    (at_ (AtResolve conf) (route c) c) Hc) as Hrd.
      rewrite Hpcc in Hrd. cbn in Hrd. unfold moved.
      destruct (decide (lock = l)) as [<-|Hne].
      * rewrite lookup_insert_eq in Hm0. injection Hm0 as <-. cbn.
        rewrite ?decide_True in Hrd by done. lia.
      * rewrite lookup_insert_ne in Hm0 by done.
        rewrite (inv_readers s HI l m0 Hm0). rewrite ?decide_False in Hrd by done. lia.
    + rewrite moved_length. apply (inv_length s HI).
  - (* AtNew *)
    destruct Hpc as (Hroute & Hlc & Hcp & Hn).
    destruct (inv_lock s HI _ Hlc) as (owner & co & m & [= <-] & Hco & Hm & Ho).
    rewrite Hc in Hco. injection Hco as <-.
    destruct Ho as [[_ Hw]|[? _]]; [|by rewrite Hpcc in *].
    rewrite Hn in Hstep.
    destruct (configNew 0 thePath) as [conf|e] eqn:Hparse; injection Hstep as <-.
    + split; cbn.
      * intros j cj Hj. destruct (decide (i = j)) as [<-|Hne].
        -- rewrite (moved_lookup_eq s i c _ Hc) in Hj. injection Hj as <-.
           repeat split; done.
        -- rewrite moved_lookup_ne in Hj by done.
           apply (caller_ok_parse _ _ _ _ i); [done..|].
           rewrite <- Hn. by apply (inv_callers s HI).
      * intros v Hv. congruence.
      * intros v Hv. rewrite Hlc in Hv. injection Hv as <-.
        eexists i, _, m. rewrite (moved_lookup_eq s i c _ Hc).
        repeat split; try done; by left.
      * intros ?. congruence.
      * lia.
      * intros l m0 Hm0. rewrite (readers_moved s i c _ l Hc) by (by rewrite Hpcc).
        by apply (inv_readers s HI).
      * rewrite moved_length. apply (inv_length s HI).
    + split; cbn.
      * intros j cj Hj. destruct (decide (i = j)) as [<-|Hne].
        -- rewrite (moved_lookup_eq s i c _ Hc) in Hj. injection Hj as <-.
           repeat split; done.
        -- rewrite moved_lookup_ne in Hj by done.
           apply (caller_ok_parse _ _ _ _ i); [done..|].
           rewrite <- Hn. by apply (inv_callers s HI).
      * intros v Hv. congruence.
      * intros v Hv. rewrite Hlc in Hv. injection Hv as <-.
        eexists i, _, m. rewrite (moved_lookup_eq s i c _ Hc).
        repeat split; try done; by left.
      * intros ?. congruence.
      * lia.
      * intros l m0 Hm0. rewrite (readers_moved s i c _ l Hc) by (by rewrite Hpcc).
        by apply (inv_readers s HI).
      * rewrite moved_length. apply (inv_length s HI).
  - (* AtStore *)
    destruct Hpc as (Hroute & Hlc & Hconf & Hcp & Hn). injection Hstep as <-.
    destruct (inv_lock s HI _ Hlc) as (owner & co & m & [= <-] & Hco & Hm & Ho).
    rewrite Hc in Hco. injection Hco as <-.
    destruct Ho as [[_ Hw]|[? _]]; [|by rewrite Hpcc in *].
    pose proof cp_lc as Hk. unfold Store.
    split; cbn.
    + intros j cj Hj. destruct (decide (i = j)) as [<-|Hne].
      * rewrite (moved_lookup_eq s i c _ Hc) in Hj. injection Hj as <-.
        repeat split; rewrite ?lookup_insert_eq, ?lookup_insert_ne by done; done.
      * rewrite moved_lookup_ne in Hj by done.
        apply (caller_ok_store _ _ _ _ _ i); [done..|]. by apply (inv_callers s HI).
    + intros v Hv. rewrite lookup_insert_eq in Hv. injection Hv as <-.
      split; [by exists conf|]. split; [done|].
      exists i. by rewrite lookup_insert_ne.
    + intros v Hv. rewrite lookup_insert_ne in Hv by done.
      rewrite Hlc in Hv. injection Hv as <-.
      eexists i, _, m. rewrite (moved_lookup_eq s i c _ Hc).
      repeat split; try done; by left.
    + rewrite lookup_insert_ne by done. congruence.
    + apply (inv_parses s HI).
    + intros l m0 Hm0. rewrite (readers_moved s i c _ l Hc) by (by rewrite Hpcc).
      by apply (inv_readers s HI).
    + rewrite moved_length. apply (inv_length s HI).
  - (* AtUnlockWinner *)
    destruct Hpc as (Hroute & Hlc & Hconf & Hcp).
    destruct (inv_lock s HI _ Hlc) as (owner & co & m & [= <-] & Hco & Hm & Ho).
    rewrite Hc in Hco. injection Hco as <-.
    destruct Ho as [[_ Hw]|[? _]]; [|by rewrite Hpcc in *].
    assert (Hpub : published (SharedCache s)) by by exists conf.
    rewrite Hm in Hstep. cbn in Hstep. unfold Unlock in Hstep. rewrite Hw in Hstep.
    injection Hstep as <-.
    split; cbn.
    + intros j cj Hj. destruct (decide (i = j)) as [<-|Hne].
      * rewrite (moved_lookup_eq s i c _ Hc) in Hj. injection Hj as <-.
        repeat split; [done..|]. exists i. split; [done|]. by left.
      * rewrite moved_lookup_ne in Hj by done.
        apply (caller_ok_mutexes _ (mutexes s)); [by apply (inv_callers s HI)|].
        intros m0 Hm0 Hw0. exists m0. by rewrite lookup_insert_ne.
    + apply (inv_config s HI).
    + intros v Hv. rewrite Hlc in Hv. injection Hv as <-.
      eexists i, _, _. rewrite (moved_lookup_eq s i c _ Hc), lookup_insert_eq.
      repeat split; try done; right; done.
    + apply (inv_before s HI).
    + apply (inv_parses s HI).
    + intros l m0 Hm0. rewrite (readers_moved s i c _ l Hc) by (by rewrite Hpcc).
      destruct (decide (i = l)) as [<-|Hne].
      * rewrite lookup_insert_eq in Hm0. injection Hm0 as <-. cbn.
        by apply (inv_readers s HI).
      * rewrite lookup_insert_ne in Hm0 by done. by apply (inv_readers s HI).
    + rewrite moved_length. apply (inv_length s HI).
  - (* AtResolve *)
    destruct Hpc as (Hconf & Hcp & Hr). injection Hstep as <-.
    apply (Inv_local s i c); [done|done| | |by intros; rewrite Hpcc].
    + split; [done|]. split; [done|]. cbn. split; [by exists conf|done].
    + intros m [[? _]|(_ & ? & ? & ?)]; [by rewrite Hpcc in *|]. right. done.
  - done.
  - done.
  - done.
Qed.

Lemma Inv_run (schedule : list nat) :
  forall s s', Inv s -> run schedule s = Some s' -> Inv s'.
Proof.
  induction schedule as [|i rest IH]; intros s s' HI Hrun; cbn in Hrun.
  - by injection Hrun as <-.
  - destruct (step i s) as [s1|] eqn:Hs; [|done].
    eapply IH; [|done]. by eapply Inv_step.
Qed.

Lemma total_insert (l : list Caller) (i : nat) (c c' : Caller) :
  l !! i = Some c ->
  total (<[i := c']> l) + rank (pc c) = total l + rank (pc c').
Proof.
  revert i. induction l as [|x l IH]; intros [|i] H; try done.
  - injection H as ->. cbn. lia.
  - change (<[S i := c']> (x :: l)) with (x :: <[i := c']> l).
    cbn [total]. specialize (IH i H). lia.
Qed.

Lemma step_rank (s s' : State) (i : nat) :
  step i s = Some s' -> total (callers s') < total (callers s).
Proof.
  unfold step. destruct (callers s !! i) as [c|] eqn:Hc; [|done].
  intros Hstep.
  assert (exists c', callers s' = <[i := c']> (callers s) /\ rank (pc c') < rank (pc c))
    as (c' & -> & Hlt).
  { unfold Load, LoadOrStore in Hstep.
    destruct (pc c);
      repeat match type of Hstep with
             | context [match ?x with _ => _ end] => destruct x
             end;
      try done; injection Hstep as <-; eexists; split; try reflexivity; cbn; lia. }
  pose proof (total_insert _ i c c' Hc). lia.
Qed.

Lemma run_bound (schedule : list nat) :
  forall s s', run schedule s = Some s' ->
    length schedule + total (callers s') <= total (callers s).
Proof.
  induction schedule as [|i rest IH]; intros s s' Hrun; cbn in Hrun.
  - injection Hrun as <-. cbn. lia.
  - destruct (step i s) as [s1|] eqn:Hs; [|done].
    specialize (IH _ _ Hrun). apply step_rank in Hs. cbn. lia.
Qed.

Lemma total_fresh : total (callers (fresh path modules)) = 12 * length modules.
Proof.
  unfold fresh. cbn [callers]. induction modules as [|m l IH]; cbn in *; lia.
Qed.

Lemma step_enabled (s : State) (i : nat) (c : Caller) :
  callers s !! i = Some c ->
  (forall l, pc c <> AtRLock l) -> finished (pc c) = false ->
  is_Some (step i s).
Proof.
  intros Hc Hl Hf. unfold step. rewrite Hc. unfold Load, LoadOrStore.
  destruct (pc c) eqn:Hp; try done; try (by destruct (Hl lock));
    repeat match goal with
           | |- context [match ?x with _ => _ end] => destruct x
           end; by eexists.
Qed.

(** Unless the parse has panicked, some caller can step as long as one
    of them has not finished. *)
Lemma Inv_progress (s : State) (i : nat) (c : Caller) :
  Inv s -> (forall j cj e, callers s !! j = Some cj -> pc cj <> Panicking e) ->
  callers s !! i = Some c -> finished (pc c) = false ->
  exists j s', step j s = Some s'.
Proof.
  intros HI Hok Hc Hf.
  destruct (pc c) eqn:Hp;
    try (destruct (step_enabled s i c Hc) as [s' Hs];
         [by rewrite Hp|by rewrite Hp|by exists i, s']).
  destruct (inv_callers s HI i c Hc) as (Hpath & _ & Hpc). rewrite Hp in Hpc.
  destruct Hpc as (_ & Hlc & _).
  destruct (inv_lock s HI _ Hlc) as (owner & co & m & [= <-] & Hco & Hm & Ho).
  destruct Ho as [[Hw _]|(_ & Hw & _)].
  - destruct (step_enabled s lock co Hco) as [s' Hs].
    + intros l Hl. by rewrite Hl in Hw.
    + destruct (pc co) eqn:Hpco; try done. by destruct (Hok lock co e Hco).
    + by exists lock, s'.
  - exists i. unfold step. rewrite Hc, Hp, Hm. unfold RLock. rewrite Hw. eauto.
Qed.

Lemma constructed_owner (s : State) (i : nat) (c : Caller) :
  Inv s -> callers s !! i = Some c -> route c = Some Constructed ->
  SharedCache s !! lc = Some (CachedLock i).
Proof.
  intros HI Hc Hr. destruct (inv_callers s HI i c Hc) as (_ & _ & Hpc).
  unfold route_ok in Hpc. destruct (pc c); naive_solver.
Qed.

Lemma no_panic (s : State) :
  Inv s -> (exists conf, parsed conf) ->
  forall j cj e, callers s !! j = Some cj -> pc cj <> Panicking e.
Proof.
  intros HI [conf Hconf] j cj e Hj Hp.
  destruct (inv_callers s HI j cj Hj) as (_ & _ & Hpc). rewrite Hp in Hpc.
  destruct Hpc as (_ & _ & He & _). unfold parsed in Hconf. congruence.
Qed.

(** C1, as the code has it: from a fresh session, however the callers
    of [Config] for one path are scheduled, [config.New] runs at most
    once, and exactly once by the time all have finished; one caller
    runs it.  When it returns, every other caller that returns either
    found the published Config in the shared cache by its first [Load]
    (the fast path) or took the read lock on the published mutex and
    re-read the cache; the config slot of the cache and the hands of the
    callers only ever hold the Config that this one [config.New]
    returned, every caller that returns returns the ResolvedConfig
    resolved from it for its module, and some caller can always step
    until all have returned.  When it panics, the panic is that of the
    one caller that ran it, nothing is published and no caller returns.
    Either way no type assertion fails, no mutex is unlocked that is not
    locked, and no schedule is longer than twelve steps per caller. *)
Theorem Config_single_flight (schedule : list nat) (s : State) :
  1 <= length modules ->
  run schedule (fresh path modules) = Some s ->
  parses s <= 1 /\
  (forall v, SharedCache s !! cp = Some v ->
     exists conf, v = CachedConfig conf /\ parsed conf) /\
  (forall i c,
     callers s !! i = Some c ->
     pc c <> Crashed /\
     (forall conf, inHand (pc c) = Some conf -> parsed conf) /\
     (forall rc,
        pc c = Returned rc ->
        parses s = 1 /\
        (exists conf, parsed conf /\ rc = Resolve conf (moduleName c)) /\
        modules !! i = Some (moduleName c) /\
        (route c = Some Constructed \/ route c = Some FastPath \/
         route c = Some Waited)) /\
     (forall e,
        pc c = Panicking e ->
        configNew 0 thePath = Session.Panicked e /\ parses s = 1 /\
        SharedCache s !! lc = Some (CachedLock i) /\
        SharedCache s !! cp = None)) /\
  (forall i j ci cj,
     callers s !! i = Some ci -> callers s !! j = Some cj ->
     route ci = Some Constructed -> route cj = Some Constructed -> i = j) /\
  ((exists conf, parsed conf) ->
   (exists i c, callers s !! i = Some c /\ finished (pc c) = false) ->
   exists j s', step j s = Some s') /\
  length schedule <= 12 * length modules /\
  ((forall i c, callers s !! i = Some c -> finished (pc c) = true) ->
   parses s = 1 /\
   exists i c,
     callers s !! i = Some c /\
     (route c = Some Constructed \/ exists e, pc c = Panicking e)) /\
  (forall e,
     configNew 0 thePath = Session.Panicked e ->
     SharedCache s !! cp = None /\
     forall i c rc, callers s !! i = Some c -> pc c <> Returned rc).
Proof.
  intros Hn Hrun.
  pose proof (Inv_run schedule _ _ Inv_fresh Hrun) as HI.
  split; [apply (inv_parses s HI)|].
  split; [intros v Hv; by destruct (inv_config s HI v Hv)|].
  split; [|split; [|split; [|split; [|split]]]].
  - intros i c Hc. destruct (inv_callers s HI i c Hc) as (Hpath & Hmod & Hpc).
    split; [|split; [|split]].
    + intros Hp. by rewrite Hp in Hpc.
    + intros conf Hh. destruct (pc c); try done; injection Hh as <-; naive_solver.
    + intros rc Hp. rewrite Hp in Hpc. destruct Hpc as ((conf & Hconf & -> & Hcp) & Hr).
      destruct (inv_config s HI _ Hcp) as (_ & Hparses & _).
      split; [done|]. split; [by exists conf|]. split; [done|].
      unfold route_ok in Hr. naive_solver.
    + intros e Hp. rewrite Hp in Hpc. destruct Hpc as (_ & Hlc & He & Hcp & Hparses).
      done.
  - intros i j ci cj Hi Hj Hri Hrj.
    pose proof (constructed_owner s i ci HI Hi Hri) as H1.
    pose proof (constructed_owner s j cj HI Hj Hrj) as H2.
    congruence.
  - intros Hconf (i & c & Hc & Hf).
    apply (Inv_progress s i c); [done|by apply no_panic|done|done].
  - pose proof (run_bound schedule _ _ Hrun) as Hb. rewrite total_fresh in Hb. lia.
  - intros Hall.
    assert (exists c, callers s !! 0 = Some c) as [c Hc].
    { apply lookup_lt_is_Some. rewrite (inv_length s HI). lia. }
    destruct (inv_callers s HI 0 c Hc) as (_ & _ & Hpc).
    pose proof (Hall 0 c Hc) as Hf.
    destruct (pc c) eqn:Hp; try done.
    + destruct Hpc as ((conf & _ & _ & Hcp) & _).
      destruct (inv_config s HI _ Hcp) as (_ & Hparses & owner & Hlc).
      split; [done|].
      destruct (inv_lock s HI _ Hlc) as (o & co & m & [= <-] & Hco & _ & Ho).
      exists owner, co. split; [done|].
      destruct Ho as [[Hw _]|(_ & _ & _ & Hr)]; [|by left].
      pose proof (Hall owner co Hco). destruct (pc co); try done.
      right. by eexists.
    + destruct Hpc as (_ & _ & _ & _ & Hparses). split; [done|].
      exists 0, c. split; [done|]. right. by eexists.
  - intros e He. split.
    + destruct (SharedCache s !! cp) as [v|] eqn:Hcp; [|done].
      destruct (inv_config s HI v Hcp) as ((conf & _ & Hconf) & _).
      unfold parsed in Hconf. congruence.
    + intros i c rc Hc Hp.
      destruct (inv_callers s HI i c Hc) as (_ & _ & Hpc). rewrite Hp in Hpc.
      destruct Hpc as ((conf & Hconf & _) & _). unfold parsed in Hconf. congruence.
Qed.

(** X12: the keys of the configurations and the keys of the locks never
    meet, whatever the paths, and different paths have different keys:
    one [sync.Map] can hold both without a lock of one path being taken
    for the configuration of another. *)
Theorem config_and_lock_keys_apart (p q : string) :
  cpKey p <> lcKey q /\
  (cpKey p = cpKey q -> p = q) /\
  (lcKey p = lcKey q -> p = q).
Proof.
  unfold cpKey, lcKey, hieraConfigsPrefix, hieraLockPrefix. cbn.
  split; [|split]; intros H; by inversion H.
Qed.

Lemma cache_grows (s s' : State) (i : nat) :
  Inv s -> step i s = Some s' ->
  SharedCache s ⊆ SharedCache s' /\
  forall k, is_Some (SharedCache s' !! k) ->
    is_Some (SharedCache s !! k) \/ k = cp \/ k = lc.
Proof.
  intros HI Hstep. unfold step in Hstep.
  destruct (callers s !! i) as [c|] eqn:Hc; [|done].
  destruct (inv_callers s HI i c Hc) as (Hpath & Hmod & Hpc).
  rewrite (pathOf_thePath c Hpath) in Hstep. fold cp lc in Hstep.
  unfold Load, LoadOrStore, Store in Hstep.
  destruct (SharedCache s !! lc) as [lv|] eqn:Hlc;
  destruct (pc c) eqn:Hp;
    repeat match type of Hstep with
           | context [match ?x with _ => _ end] => destruct x eqn:?
           end;
    simplify_eq; cbn; try (split; [done|by left]).
  - destruct Hpc as (_ & _ & _ & Hnone & _).
    split; [by apply insert_subseteq|].
    intros k Hk. destruct (decide (k = cp)) as [->|Hne]; [by right; left|].
    left. by rewrite lookup_insert_ne in Hk.
  - split; [by apply insert_subseteq|].
    intros k Hk. destruct (decide (k = lc)) as [->|Hne]; [by right; right|].
    left. by rewrite lookup_insert_ne in Hk.
  - destruct Hpc as (_ & _ & _ & Hnone & _).
    split; [by apply insert_subseteq|].
    intros k Hk. destruct (decide (k = cp)) as [->|Hne]; [by right; left|].
    left. by rewrite lookup_insert_ne in Hk.
Qed.

Lemma cache_grows_run (schedule : list nat) :
  forall s s', Inv s -> run schedule s = Some s' ->
    SharedCache s ⊆ SharedCache s' /\
    forall k, is_Some (SharedCache s' !! k) ->
      is_Some (SharedCache s !! k) \/ k = cp \/ k = lc.
Proof.
  induction schedule as [|i rest IH]; intros s s' HI Hrun; cbn in Hrun.
  - injection Hrun as <-. split; [done|by left].
  - destruct (step i s) as [s1|] eqn:Hs; [|done].
    destruct (cache_grows s s1 i HI Hs) as [Hsub1 Hk1].
    destruct (IH s1 s' (Inv_step s s1 i HI Hs) Hrun) as [Hsub2 Hk2].
    split; [by etrans|].
    intros k Hk. destruct (Hk2 k Hk) as [H|H]; [by apply Hk1|by right].
Qed.

(** X13: the shared cache only grows.  Whatever the callers of [Config]
    do, an entry of the shared cache is never removed and never
    replaced, and the only keys ever written are the configuration key
    and the lock key of the path. *)
Theorem Config_cache_only_grows (schedule more : list nat) (s s' : State) :
  run schedule (fresh path modules) = Some s ->
  run more s = Some s' ->
  (forall k v, SharedCache s !! k = Some v -> SharedCache s' !! k = Some v) /\
  (forall k, is_Some (SharedCache s' !! k) -> k = cp \/ k = lc).
Proof.
  intros Hrun Hmore.
  pose proof (Inv_run schedule _ _ Inv_fresh Hrun) as HI.
  destruct (cache_grows_run more s s' HI Hmore) as [Hsub _].
  split.
  - intros k v Hk. by eapply lookup_weaken.
  - assert (Happ : run (schedule ++ more) (fresh path modules) = Some s').
    { clear HI Hsub. revert Hrun. generalize (fresh path modules).
      induction schedule as [|i rest IH]; intros s0 Hrun; cbn in *.
      - by injection Hrun as ->.
      - destruct (step i s0); [by apply IH|done]. }
    destruct (cache_grows_run _ _ _ Inv_fresh Happ) as [_ Hkeys].
    intros k Hk. destruct (Hkeys k Hk) as [[v Hv]|H]; [|done].
    cbn in Hv. by rewrite lookup_empty in Hv.
Qed.

(** X14: the lock slot only ever holds a mutex.  The mutex published
    under the lock key is never replaced by the configuration, so the
    branch of [Config] that takes the value loaded from the lock slot
    for a configuration is never taken, and on fresh invocations no
    caller is answered from the memo. *)
Theorem Config_lock_slot_holds_mutex (schedule : list nat) (s : State) :
  run schedule (fresh path modules) = Some s ->
  (forall v, SharedCache s !! lc = Some v ->
     exists owner, v = CachedLock owner /\ owner < length modules) /\
  (forall i c,
     callers s !! i = Some c ->
     route c <> Some LockSlot /\ route c <> Some Memo /\
     forall lv, pc c = AtUnlockLoser lv ->
       exists owner, lv = CachedLock owner /\ owner <> i).
Proof.
  intros Hrun. pose proof (Inv_run schedule _ _ Inv_fresh Hrun) as HI.
  split.
  - intros v Hv.
    destruct (inv_lock s HI v Hv) as (owner & c & m & -> & Hc & _).
    exists owner. split; [done|].
    rewrite <- (inv_length s HI). by eapply lookup_lt_Some.
  - intros i c Hc.
    destruct (inv_callers s HI i c Hc) as (_ & _ & Hpc).
    split; [|split].
    + unfold route_ok in Hpc. destruct (pc c); naive_solver.
    + unfold route_ok in Hpc. destruct (pc c); naive_solver.
    + intros lv Hp. rewrite Hp in Hpc. destruct Hpc as (_ & Hlc & Hne & _).
      destruct (inv_lock s HI lv Hlc) as (owner & _ & _ & -> & _).
      exists owner. split; [done|]. by intros ->.
Qed.

(** X15: once the configuration is published, a caller that has not
    begun returns in three steps of its own, whatever state the other
    callers are in: it reads the memo, loads the configuration from the
    shared cache, which is the one the first parse returned, and
    resolves it, without parsing, without touching a mutex or the shared
    cache, and without waiting. *)
Theorem Config_fast_path_is_wait_free (schedule : list nat) (s : State)
    (i : nat) (c : Caller) :
  run schedule (fresh path modules) = Some s ->
  callers s !! i = Some c -> pc c = AtEntry ->
  is_Some (SharedCache s !! cp) ->
  exists conf s' c',
    parsed conf /\
    run [i; i; i] s = Some s' /\
    SharedCache s' = SharedCache s /\ mutexes s' = mutexes s /\
    parses s' = parses s /\
    callers s' = <[i := c']> (callers s) /\
    pc c' = Returned (Resolve conf (moduleName c)) /\
    route c' = Some FastPath /\
    configs c' !! thePath = Some (Resolve conf (moduleName c)).
Proof.
  intros Hrun Hc Hp [v Hv].
  pose proof (Inv_run schedule _ _ Inv_fresh Hrun) as HI.
  destruct (inv_config s HI v Hv) as ((conf & -> & Hconf) & _ & _).
  destruct (inv_callers s HI i c Hc) as (Hpath & _ & Hpc).
  rewrite Hp in Hpc. destruct Hpc as [Hmemo Hroute].
  pose proof (pathOf_thePath c Hpath) as Hpo.
  assert (Hlt : i < length (callers s)) by by eapply lookup_lt_Some.
  unfold cp in Hv. unfold pathOf in Hpo.
  set (rc := Resolve conf (moduleName c)).
  set (c' := mkCaller (configPath c) (moduleName c) (<[thePath := rc]> (configs c))
               (Returned rc) (Some FastPath)).
  set (s1 := mkState (SharedCache s) (mutexes s) (parses s)
               (<[i := at_ AtLoad (route c) c]> (callers s))).
  set (s2 := mkState (SharedCache s) (mutexes s) (parses s)
               (<[i := at_ (AtResolve conf) (Some FastPath) c]> (callers s))).
  set (s3 := mkState (SharedCache s) (mutexes s) (parses s)
               (<[i := c']> (callers s))).
  assert (H1 : step i s = Some s1).
  { unfold step, pathOf. rewrite Hc, Hp, Hpo, Hmemo. done. }
  assert (H2 : step i s1 = Some s2).
  { unfold step, pathOf, Load, moved, s1. cbn [callers SharedCache mutexes parses].
    rewrite list_lookup_insert_eq by done. cbn [at_ pc configPath route].
    rewrite Hpo, Hv. by rewrite list_insert_insert_eq. }
  assert (H3 : step i s2 = Some s3).
  { unfold step, pathOf, moved, s2. cbn [callers SharedCache mutexes parses].
    rewrite list_lookup_insert_eq by done.
    cbn [at_ pc configPath route moduleName configs].
    rewrite Hpo. by rewrite list_insert_insert_eq. }
  exists conf, s3, c'. split; [done|]. split; [cbn; by rewrite H1, H2, H3|].
  split; [done|]. split; [done|]. split; [done|]. split; [done|].
  split; [done|]. split; [done|]. apply lookup_insert_eq.
Qed.

Lemma memoised_step (s s' : State) (i : nat) :
  memoised s -> step i s = Some s' -> memoised s'.
Proof.
  intros Hm Hstep j cj rc Hj Hp. unfold step in Hstep.
  destruct (callers s !! i) as [c|] eqn:Hc; [|done].
  assert (Hlt : i < length (callers s)) by by eapply lookup_lt_Some.
  assert (Hother : j <> i -> callers s' !! j = callers s !! j).
  { intros Hne. unfold Load, LoadOrStore, Store, moved, at_ in Hstep.
    destruct (SharedCache s !! lcKey (pathOf c));
    destruct (pc c);
      repeat match type of Hstep with
             | context [match ?x with _ => _ end] => destruct x eqn:?
             end;
      simplify_eq; cbn; by rewrite list_lookup_insert_ne. }
  destruct (decide (j = i)) as [->|Hne].
  - unfold Load, LoadOrStore, Store, moved, at_ in Hstep.
    destruct (SharedCache s !! lcKey (pathOf c));
    destruct (pc c) eqn:Hpc;
      repeat match type of Hstep with
             | context [match ?x with _ => _ end] => destruct x eqn:?
             end;
      simplify_eq; cbn in Hj; rewrite list_lookup_insert_eq in Hj by done;
      simplify_eq; unfold pathOf in *; cbn in *; simplify_eq;
      first [done | apply lookup_insert_eq].
  - rewrite (Hother Hne) in Hj. by eapply Hm.
Qed.

Lemma memoised_run (schedule : list nat) :
  forall s s', memoised s -> run schedule s = Some s' -> memoised s'.
Proof.
  induction schedule as [|i rest IH]; intros s s' Hm Hrun; cbn in Hrun.
  - by injection Hrun as <-.
  - destruct (step i s) as [s1|] eqn:Hs; [|done].
    eapply IH; [|done]. by eapply memoised_step.
Qed.

Lemma memoised_fresh : memoised (fresh path modules).
Proof.
  intros i c rc Hi Hp. cbn in Hi. rewrite list_lookup_fmap in Hi.
  destruct (modules !! i); [|done]. by injection Hi as <-.
Qed.

(** X16: a caller that has returned calls [Config] again on the same
    invocation.  The second call returns in one step what the first
    returned, from the memo of the invocation, without reading the
    shared cache, without a mutex and without a parse, and it does so
    whatever module name it is given: the result is the one resolved
    for the module of the first call. *)
Theorem Config_second_call_is_memoised (schedule : list nat) (s : State)
    (i : nat) (c : Caller) (rc : ResolvedConfig) (moduleName' : string) :
  run schedule (fresh path modules) = Some s ->
  callers s !! i = Some c -> pc c = Returned rc ->
  let calling :=
    mkState (SharedCache s) (mutexes s) (parses s)
      (<[i := again moduleName' c]> (callers s)) in
  step i calling =
    Some (mkState (SharedCache s) (mutexes s) (parses s)
            (<[i := at_ (Returned rc) (Some Memo) (again moduleName' c)]> (callers s))) /\
  exists conf, parsed conf /\ rc = Resolve conf (moduleName c).
Proof.
  intros Hrun Hc Hp.
  pose proof (Inv_run schedule _ _ Inv_fresh Hrun) as HI.
  pose proof (memoised_run schedule _ _ memoised_fresh Hrun i c rc Hc Hp) as Hmemo.
  assert (Hlt : i < length (callers s)) by by eapply lookup_lt_Some.
  split.
  - unfold step. cbn [callers]. rewrite list_lookup_insert_eq by done.
    unfold pathOf, moved, again, at_ in *. cbn.
    rewrite Hmemo. by rewrite list_insert_insert_eq.
  - destruct (inv_callers s HI i c Hc) as (_ & _ & Hpc).
    rewrite Hp in Hpc. destruct Hpc as ((conf & Hconf & -> & _) & _).
    by exists conf.
Qed.

Lemma step_beyond (s : State) (j : nat) :
  length (callers s) <= j -> step j s = None.
Proof.
  intros Hj. unfold step. by rewrite (lookup_ge_None_2 _ _ Hj).
Qed.

Lemma stuck_dec (s : State) :
  (forall j, step j s = None) \/ (exists j s', step j s = Some s').
Proof.
  assert (Hk : forall k,
            (forall j, j < k -> step j s = None) \/ (exists j s', step j s = Some s')).
  { induction k as [|k [IH|IH]]; [left; lia| |by right].
    destruct (step k s) as [s'|] eqn:Hs; [right; by exists k, s'|].
    left. intros j Hj. destruct (decide (j = k)) as [->|Hne]; [done|].
    apply IH. lia. }
  destruct (Hk (length (callers s))) as [Hnone|Hsome]; [|by right].
  left. intros j. destruct (decide (j < length (callers s))) as [Hlt|Hge].
  - by apply Hnone.
  - apply step_beyond. lia.
Qed.

Lemma exhausts (n : nat) :
  forall s, total (callers s) <= n ->
    exists rest s', run rest s = Some s' /\ forall j, step j s' = None.
Proof.
  induction n as [|n IH]; intros s Hn.
  - destruct (stuck_dec s) as [Hstuck|(j & s1 & Hs)].
    + by exists [], s.
    + apply step_rank in Hs. lia.
  - destruct (stuck_dec s) as [Hstuck|(j & s1 & Hs)].
    + by exists [], s.
    + destruct (IH s1) as (rest & s' & Hrun & Hstuck).
      * apply step_rank in Hs. lia.
      * exists (j :: rest), s'. cbn. by rewrite Hs.
Qed.

(** In a state where no caller can step, every caller has finished or
    is blocked in [lock.RLock] on a mutex held for writing. *)
Lemma stuck_callers (s : State) (i : nat) (c : Caller) :
  Inv s -> (forall j, step j s = None) -> callers s !! i = Some c ->
  finished (pc c) = true \/
  exists owner co m e,
    pc c = AtRLock owner /\ callers s !! owner = Some co /\
    pc co = Panicking e /\ mutexes s !! owner = Some m /\ writer m = true.
Proof.
  intros HI Hstuck Hc.
  destruct (finished (pc c)) eqn:Hf; [by left|]. right.
  destruct (pc c) eqn:Hp;
    try (destruct (step_enabled s i c Hc) as [s' Hs];
         [by rewrite Hp|by rewrite Hp|by rewrite Hstuck in Hs]).
  destruct (inv_callers s HI i c Hc) as (_ & _ & Hpc). rewrite Hp in Hpc.
  destruct Hpc as (_ & Hlc & _).
  destruct (inv_lock s HI _ Hlc) as (owner & co & m & [= <-] & Hco & Hm & Ho).
  destruct Ho as [[Hw Hwm]|(_ & Hw & _)].
  - destruct (pc co) eqn:Hpco; try done;
      try (destruct (step_enabled s lock co Hco) as [s' Hs];
           [by rewrite Hpco|by rewrite Hpco|by rewrite Hstuck in Hs]).
    by exists lock, co, m, e.
  - pose proof (Hstuck i) as Hs. unfold step in Hs.
    rewrite Hc, Hp, Hm in Hs. unfold RLock in Hs. by rewrite Hw in Hs.
Qed.

(** X17: every run of callers of [Config] can be continued until no
    caller can step.  When [config.New] returns, every caller has then
    returned, with the configuration of the one parse resolved for its
    module: no caller is left waiting on the published mutex.  When
    [config.New] panics, the caller that ran it has left [Config] with
    the panic while the mutex it published is still locked for writing
    (the [Unlock] is not deferred): every other caller is then blocked
    in [lock.RLock] on that mutex for as long as the process lives, and
    none returns. *)
Theorem Config_completes_unless_parse_panics (schedule : list nat) (s : State) :
  run schedule (fresh path modules) = Some s ->
  exists rest s',
    run rest s = Some s' /\
    length schedule + length rest <= 12 * length modules /\
    (forall j, step j s' = None) /\
    (forall conf,
       parsed conf ->
       forall i c,
         callers s' !! i = Some c ->
         pc c = Returned (Resolve conf (moduleName c)) /\
         modules !! i = Some (moduleName c)) /\
    (forall e,
       configNew 0 thePath = Session.Panicked e ->
       forall i c,
         callers s' !! i = Some c ->
         pc c = Panicking e \/
         exists owner co m,
           pc c = AtRLock owner /\ callers s' !! owner = Some co /\
           pc co = Panicking e /\ mutexes s' !! owner = Some m /\
           writer m = true).
Proof.
  intros Hrun. pose proof (Inv_run schedule _ _ Inv_fresh Hrun) as HI.
  destruct (exhausts (total (callers s)) s) as (rest & s' & Hrest & Hstuck); [done|].
  pose proof (Inv_run rest _ _ HI Hrest) as HI'.
  exists rest, s'. split; [done|]. split.
  { pose proof (run_bound schedule _ _ Hrun) as Hb1.
    pose proof (run_bound rest _ _ Hrest) as Hb2.
    rewrite total_fresh in Hb1. lia. }
  split; [done|]. split.
  - intros conf Hconf i c Hc.
    destruct (inv_callers s' HI' i c Hc) as (_ & Hmod & Hpc).
    split; [|done].
    destruct (stuck_callers s' i c HI' Hstuck Hc)
      as [Hf|(owner & co & m & e & _ & Hco & Hpco & _)].
    + destruct (pc c) eqn:Hp; try done.
      * destruct Hpc as ((conf' & Hconf' & -> & _) & _).
        by rewrite (parsed_once conf conf').
      * by destruct (no_panic s' HI' (ex_intro _ conf Hconf) i c e Hc).
    + by destruct (no_panic s' HI' (ex_intro _ conf Hconf) owner co e Hco).
  - intros e He i c Hc.
    destruct (inv_callers s' HI' i c Hc) as (_ & _ & Hpc).
    destruct (stuck_callers s' i c HI' Hstuck Hc)
      as [Hf|(owner & co & m & e' & Hp & Hco & Hpco & Hm & Hw)].
    + left. destruct (pc c) eqn:Hp; try done.
      * destruct Hpc as ((conf & Hconf & _) & _). unfold parsed in Hconf. congruence.
      * destruct Hpc as (_ & _ & He' & _). congruence.
    + right. exists owner, co, m.
      destruct (inv_callers s' HI' owner co Hco) as (_ & _ & Hpo).
      rewrite Hpco in Hpo. destruct Hpo as (_ & _ & He' & _).
      assert (e' = e) as -> by congruence. done.
Qed.

End Callers.
End ConfigFlight.

(** ** Two callers *)

Module ConfigDemo.
Import ConfigFlight.

(** A parse that yields the path and the number of the parse, and a
    resolution that pairs the Config with the module name. *)
Definition demoNew (n : nat) (p : string) : Session.Outcome (string * nat) :=
  Session.Val (p, n).

Definition demoResolve (conf : string * nat) (m : string) : string * nat * string :=
  (conf, m).

Definition DemoState : Type := @State (string * nat) (string * nat * string).

Definition demoRun : list nat -> DemoState -> option DemoState :=
  run demoNew demoResolve "hiera.yaml".

Definition demoFresh : DemoState := fresh "/etc/hiera.yaml" ["a"; "b"].

(** Where each caller is, and how it came by its Config. *)
Definition outcome (s : DemoState)
  : list (@Pc (string * nat) (string * nat * string) * option Route) :=
  map (fun c => (pc c, route c)) (callers s).

(** The first caller returns before the second takes a step. *)
Definition lateSchedule : list nat := [0; 0; 0; 0; 0; 0; 0; 0; 1; 1; 1].

(** Both callers miss the first [Load]; the second loses the race. *)
Definition raceSchedule : list nat :=
  [0; 1; 0; 1; 0; 1; 0; 1; 0; 0; 0; 0; 1; 1; 1; 1; 1].

(** A configuration that does not parse. *)
Definition malformed : Session.Error := Session.OtherError "malformed hiera.yaml".

Definition failingNew (n : nat) (p : string) : Session.Outcome (string * nat) :=
  Session.Panicked malformed.

Definition failingRun : list nat -> DemoState -> option DemoState :=
  run failingNew demoResolve "hiera.yaml".

(** The first caller runs the parse, the second gets as far as it can. *)
Definition failingSchedule : list nat := [0; 0; 0; 0; 0; 1; 1; 1; 1; 1].

(** The writers of the mutexes of the two callers. *)
Definition locks (s : DemoState) : list (option bool) :=
  [writer <$> mutexes s !! 0; writer <$> mutexes s !! 1].

Lemma late_run :
  match demoRun lateSchedule demoFresh with
  | Some s =>
      outcome s =
        [(Returned ("/etc/hiera.yaml", 0, "a"), Some Constructed);
         (Returned ("/etc/hiera.yaml", 0, "b"), Some FastPath)]
  | None => False
  end.
Proof. vm_compute. reflexivity. Qed.

Lemma race_run :
  match demoRun raceSchedule demoFresh with
  | Some s =>
      outcome s =
        [(Returned ("/etc/hiera.yaml", 0, "a"), Some Constructed);
         (Returned ("/etc/hiera.yaml", 0, "b"), Some Waited)]
  | None => False
  end.
Proof. vm_compute. reflexivity. Qed.

Lemma failing_run :
  match failingRun failingSchedule demoFresh with
  | Some s =>
      outcome s = [(Panicking malformed, None); (AtRLock 0, None)] /\
      locks s = [Some true; Some false] /\
      parses s = 1 /\
      failingRun [0] s = None /\ failingRun [1] s = None
  | None => False
  end.
Proof. vm_compute. repeat split. Qed.

Lemma Config_single_flight_witness :
  1 <= length ["a"; "b"] /\
  match demoRun raceSchedule demoFresh with
  | Some s => parses s <= 1 /\ length raceSchedule <= 12 * 2
  | None => False
  end.
Proof.
  split; [cbn; lia|].
  pose proof race_run as Hrace.
  destruct (demoRun raceSchedule demoFresh) as [s|] eqn:Hrun; [|exact Hrace].
  assert (Hn : 1 <= length ["a"; "b"]) by (cbn; lia).
  destruct (Config_single_flight demoNew demoResolve "hiera.yaml" "/etc/hiera.yaml"
              ["a"; "b"] raceSchedule s Hn Hrun) as (H1 & _ & _ & _ & _ & H2 & _).
  exact (conj H1 H2).
Defined.

(** C1, as stated, fails, in two ways.  With two callers, when the
    first has returned before the second reads the shared cache, the
    second finds the Config by its first [Load] and never touches the
    published mutex.  And when the configuration does not parse, the
    caller that ran [config.New] leaves with the panic, the mutex it
    published stays locked for writing, the other caller is blocked in
    [lock.RLock], and no caller obtains a ResolvedConfig. *)
Lemma Config_fast_path_and_failed_parse :
  ~ (forall schedule s i c rc,
       demoRun schedule demoFresh = Some s ->
       callers s !! i = Some c ->
       pc c = Returned rc ->
       route c = Some Constructed \/ route c = Some Waited) /\
  match failingRun failingSchedule demoFresh with
  | Some s =>
      outcome s = [(Panicking malformed, None); (AtRLock 0, None)] /\
      locks s = [Some true; Some false] /\
      failingRun [0] s = None /\ failingRun [1] s = None
  | None => False
  end.
Proof.
  split.
  - intros H. pose proof late_run as Hlate.
    destruct (demoRun lateSchedule demoFresh) as [s|] eqn:Hrun; [|exact Hlate].
    unfold outcome in Hlate.
    destruct (callers s) as [|c0 [|c1 [|c2 rest]]] eqn:Hcs;
      try (exfalso; discriminate Hlate).
    injection Hlate as _ _ Hp Hr.
    assert (Hc1 : callers s !! 1 = Some c1) by (rewrite Hcs; reflexivity).
    destruct (H lateSchedule s 1 c1 _ Hrun Hc1 Hp) as [Hx|Hx];
      rewrite Hr in Hx; discriminate Hx.
  - pose proof failing_run as Hfail.
    destruct (failingRun failingSchedule demoFresh) as [s|]; [|exact Hfail].
    destruct Hfail as (H1 & H2 & _ & H3 & H4).
    exact (conj H1 (conj H2 (conj H3 H4))).
Qed.

(** The first caller runs alone until it has returned; then the second
    takes its three steps. *)
Definition firstAlone : list nat := [0; 0; 0; 0; 0; 0; 0; 0].

Definition demoCp : string := cp "hiera.yaml" "/etc/hiera.yaml".

Lemma first_run :
  match demoRun firstAlone demoFresh with
  | Some s =>
      outcome s =
        [(Returned ("/etc/hiera.yaml", 0, "a"), Some Constructed); (AtEntry, None)] /\
      SharedCache s !! demoCp = Some (CachedConfig ("/etc/hiera.yaml", 0)) /\
      match demoRun [1; 1; 1] s with
      | Some s' =>
          outcome s' =
            [(Returned ("/etc/hiera.yaml", 0, "a"), Some Constructed);
             (Returned ("/etc/hiera.yaml", 0, "b"), Some FastPath)]
      | None => False
      end
  | None => False
  end.
Proof. vm_compute. repeat split. Qed.

Lemma Config_cache_only_grows_witness :
  match demoRun firstAlone demoFresh with
  | Some s =>
      match demoRun [1; 1; 1] s with
      | Some s' =>
          forall k v, SharedCache s !! k = Some v -> SharedCache s' !! k = Some v
      | None => False
      end
  | None => False
  end.
Proof.
  pose proof first_run as Hfirst.
  destruct (demoRun firstAlone demoFresh) as [s|] eqn:Hrun; [|exact Hfirst].
  destruct Hfirst as (_ & _ & Hmore).
  destruct (demoRun [1; 1; 1] s) as [s'|] eqn:Hrest; [|exact Hmore].
  exact (proj1 (Config_cache_only_grows demoNew demoResolve "hiera.yaml"
                  "/etc/hiera.yaml" ["a"; "b"] firstAlone [1; 1; 1] s s' Hrun Hrest)).
Defined.

Lemma Config_lock_slot_holds_mutex_witness :
  match demoRun raceSchedule demoFresh with
  | Some s =>
      forall i c, callers s !! i = Some c ->
        route c <> Some LockSlot /\ route c <> Some Memo
  | None => False
  end.
Proof.
  pose proof race_run as Hrace.
  destruct (demoRun raceSchedule demoFresh) as [s|] eqn:Hrun; [|exact Hrace].
  destruct (Config_lock_slot_holds_mutex demoNew demoResolve "hiera.yaml"
              "/etc/hiera.yaml" ["a"; "b"] raceSchedule s Hrun) as [_ H].
  intros i c Hc. destruct (H i c Hc) as (H1 & H2 & _). exact (conj H1 H2).
Defined.

Lemma Config_fast_path_is_wait_free_witness :
  match demoRun firstAlone demoFresh with
  | Some s =>
      exists s', demoRun [1; 1; 1] s = Some s' /\
                 SharedCache s' = SharedCache s /\ mutexes s' = mutexes s /\
                 parses s' = parses s
  | None => False
  end.
Proof.
  pose proof first_run as Hfirst.
  destruct (demoRun firstAlone demoFresh) as [s|] eqn:Hrun; [|exact Hfirst].
  destruct Hfirst as (Hout & Hcp & _). unfold outcome in Hout.
  destruct (callers s) as [|c0 [|c1 [|c2 rest]]] eqn:Hcs;
    try (exfalso; discriminate Hout).
  injection Hout as _ _ Hp _.
  assert (Hc1 : callers s !! 1 = Some c1) by (rewrite Hcs; reflexivity).
  destruct (Config_fast_path_is_wait_free demoNew demoResolve "hiera.yaml"
              "/etc/hiera.yaml" ["a"; "b"] firstAlone s 1 c1 Hrun Hc1 Hp
              (ex_intro _ _ Hcp)) as (conf & s' & c' & _ & H1 & H2 & H3 & H4 & _).
  exists s'. exact (conj H1 (conj H2 (conj H3 H4))).
Defined.

Lemma Config_second_call_is_memoised_witness :
  match demoRun lateSchedule demoFresh with
  | Some s =>
      forall c, callers s !! 0 = Some c ->
        step demoNew demoResolve "hiera.yaml" 0
          (mkState (SharedCache s) (mutexes s) (parses s)
             (<[0 := again "other" c]> (callers s))) =
        Some (mkState (SharedCache s) (mutexes s) (parses s)
                (<[0 := at_ (Returned ("/etc/hiera.yaml", 0, "a")) (Some Memo)
                          (again "other" c)]> (callers s)))
  | None => False
  end.
Proof.
  pose proof late_run as Hlate.
  destruct (demoRun lateSchedule demoFresh) as [s|] eqn:Hrun; [|exact Hlate].
  unfold outcome in Hlate. intros c Hc.
  destruct (callers s) as [|c0 [|c1 [|c2 rest]]] eqn:Hcs;
    try (exfalso; discriminate Hlate).
  injection Hlate as Hp _ _ _.
  injection Hc as <-.
  assert (Hc0 : callers s !! 0 = Some c0) by (rewrite Hcs; reflexivity).
  rewrite <- Hcs.
  exact (proj1 (Config_second_call_is_memoised demoNew demoResolve "hiera.yaml"
                  "/etc/hiera.yaml" ["a"; "b"] lateSchedule s 0 c0 _ "other"
                  Hrun Hc0 Hp)).
Defined.

Lemma Config_completes_unless_parse_panics_witness :
  exists rest s',
    demoRun rest demoFresh = Some s' /\
    forall i c,
      callers s' !! i = Some c ->
      pc c = Returned (demoResolve ("/etc/hiera.yaml", 0) (moduleName c)).
Proof.
  destruct (Config_completes_unless_parse_panics demoNew demoResolve "hiera.yaml"
              "/etc/hiera.yaml" ["a"; "b"] [] demoFresh eq_refl)
    as (rest & s' & Hrun & _ & _ & Hall & _).
  exists rest, s'. split; [exact Hrun|].
  intros i c Hc. exact (proj1 (Hall ("/etc/hiera.yaml", 0) eq_refl i c Hc)).
Defined.

End ConfigDemo.
